(** * instance-configurator: InstanceConfig and MCK_MailHelper

    A shallow embedding of the two script includes of the repository,
    [src/InstanceConfig.js] and [src/mckMailHelper.js], together with the
    part of the hosting platform they call (system properties, GlideRecord
    queries, the user directory) and the JavaScript string primitives they
    use.  Every call that reaches the platform is recorded in a trace, so
    that statements such as "no configuration read is performed" or "the
    directory is consulted at most once" can be stated. *)

From Stdlib Require Import ZArith String Ascii.
From stdpp Require Import base option list gmap strings.

Local Open Scope string_scope.
Local Open Scope list_scope.
Local Open Scope Z_scope.

(** String concatenation unfolds on a first argument that starts with a
    constructor. *)
#[local] Arguments String.append !s1 s2.

(** ** JavaScript string primitives

    Strings are sequences of code units, modelled by [string] (characters
    are [ascii] code units).  A value of JavaScript type [string | null] is
    an [option string], [None] standing for [null]. *)

Module JS.

(** [Boolean(s)] for a string: only the empty string is falsy. *)
Definition truthy (s : string) : bool :=
  match s with
  | EmptyString => false
  | String _ _ => true
  end.

(** Truthiness of a [string | null]. *)
Definition truthy_opt (v : option string) : bool :=
  match v with
  | None => false
  | Some s => truthy s
  end.

(** [strip_prefix p s] is the rest of [s] after its prefix [p], when [s]
    starts with [p]. *)
Fixpoint strip_prefix (p s : string) : option string :=
  match p with
  | EmptyString => Some s
  | String a p' =>
      match s with
      | EmptyString => None
      | String b s' => if Ascii.eqb a b then strip_prefix p' s' else None
      end
  end.

(** [search pat s]: the text before and the text after the first
    (leftmost) occurrence of [pat] in [s]. *)
Fixpoint search (pat s : string) : option (string * string) :=
  match strip_prefix pat s with
  | Some rest => Some (EmptyString, rest)
  | None =>
      match s with
      | EmptyString => None
      | String c s' =>
          match search pat s' with
          | Some (before, rest) => Some (String c before, rest)
          | None => None
          end
      end
  end.

(** [String.prototype.indexOf]: the position of the first occurrence of
    [pat] in [s], or [-1]. *)
Definition indexOf (s pat : string) : Z :=
  match search pat s with
  | Some (before, _) => Z.of_nat (String.length before)
  | None => -1
  end.

(** [String.prototype.toLowerCase], on the code units [A] to [Z]. *)
Definition toLowerCase_unit (c : ascii) : ascii :=
  let n := N_of_ascii c in
  if ((65 <=? n) && (n <=? 90))%N then ascii_of_N (n + 32) else c.

Fixpoint toLowerCase (s : string) : string :=
  match s with
  | EmptyString => EmptyString
  | String c s' => String (toLowerCase_unit c) (toLowerCase s')
  end.

(** [String.prototype.split] with a one-character separator. *)
Fixpoint split (sep : ascii) (s : string) : list string :=
  match s with
  | EmptyString => [EmptyString]
  | String c s' =>
      if Ascii.eqb c sep then EmptyString :: split sep s'
      else
        match split sep s' with
        | piece :: pieces => String c piece :: pieces
        | [] => [String c EmptyString]
        end
  end.

(** [Array.prototype.join]: a [null] element contributes the empty
    string. *)
Fixpoint join (sep : string) (l : list (option string)) : string :=
  match l with
  | [] => EmptyString
  | [x] => default EmptyString x
  | x :: rest => default EmptyString x +:+ sep +:+ join sep rest
  end.

(** The replacement text of [String.prototype.replace] (the abstract
    operation GetSubstitution) for a search value that is a string, so
    that there are no captures: [$$] is a dollar sign, [$&] the matched
    text, [$`] the text before the match, [$'] the text after it; any
    other character, a dollar sign before anything else included, stands
    for itself. *)
Fixpoint GetSubstitution (matched before rest replacement : string) : string :=
  match replacement with
  | EmptyString => EmptyString
  | String c r =>
      if Ascii.eqb c "$" then
        match r with
        | EmptyString => String c EmptyString
        | String d r' =>
            if Ascii.eqb d "$" then
              String "$" (GetSubstitution matched before rest r')
            else if Ascii.eqb d "&" then
              matched +:+ GetSubstitution matched before rest r'
            else if Ascii.eqb d "`" then
              before +:+ GetSubstitution matched before rest r'
            else if Ascii.eqb d "'" then
              rest +:+ GetSubstitution matched before rest r'
            else String c (GetSubstitution matched before rest r)
        end
      else String c (GetSubstitution matched before rest r)
  end.

(** [s.replace(pat, replacement)] for a string [pat]: only the first
    occurrence of [pat] is replaced; [s] is returned as it is when [pat]
    does not occur. *)
Definition replace (s pat replacement : string) : string :=
  match search pat s with
  | Some (before, rest) =>
      before +:+ GetSubstitution pat before rest replacement +:+ rest
  | None => s
  end.

(** The regular expression [emailRegex] of the mail helper: a [<], then a
    captured, greedy run of characters other than [>], then a [>]; its
    flag [i] changes nothing, as it has no letters.

    [group_then_close s] matches the run and the closing [>] at the start
    of [s] and returns the run: the star takes every character up to the
    first [>]; giving back characters cannot help, since the character
    after a shorter run is not [>]. *)
Fixpoint group_then_close (s : string) : option string :=
  match s with
  | EmptyString => None
  | String c s' =>
      if Ascii.eqb c ">" then Some EmptyString
      else String c <$> group_then_close s'
  end.

(** [s.match(emailRegex)]: the start positions are tried from left to
    right; the result is capture group 1 of the first match, [None] when
    the expression matches nowhere ([match] returns [null]). *)
Fixpoint match_emailRegex (s : string) : option string :=
  match s with
  | EmptyString => None
  | String c s' =>
      match (if Ascii.eqb c "<" then group_then_close s' else None) with
      | Some g => Some g
      | None => match_emailRegex s'
      end
  end.

End JS.

(** ** The hosting platform

    The script includes run inside a platform that is not part of the
    repository.  The model keeps what the two classes use of it: a flat
    map of system properties, named tables of records queried by equality on
    fields, and the user directory with its group memberships. *)

(** A record of a table: a field that is missing (or empty) reads as
    [null].  A dot-walked field such as [property.key] is a field of the
    record it is read from. *)
Abbreviation row := (gmap string string).

Record world : Type := World {
  sys_properties : gmap string string;  (* gs.getProperty *)
  tables : gmap string (list row);      (* records of a table, in store order *)
  user_directory : gmap string (gset string)
                                        (* sys_id of a user: the groups they are a member of *)
}.

(** Calls that reach the platform, in the order they are made. *)
Inductive event : Type :=
| GetProperty (name : string)
| Query (table : string) (conditions : list (string * option string))
| GetUserByID (sys_id : option string)
| IsMemberOf (user : string) (group : string).

Inductive exn : Type := TypeError.

Inductive outcome (A : Type) : Type :=
| Return (a : A)
| Throw (e : exn).
Arguments Return {A} a.
Arguments Throw {A} e.

(** A computation: the platform calls it made and how it ended.  The
    platform is only read, so it is a parameter of the operations and not
    part of the state. *)
Record M (A : Type) : Type := Run { trace : list event; result : outcome A }.
Arguments Run {A} trace result.
Arguments trace {A} m.
Arguments result {A} m.

#[export] Instance M_ret : MRet M := λ A a, Run [] (Return a).

#[export] Instance M_bind : MBind M := λ A B f m,
  match result m with
  | Return a => Run (trace m ++ trace (f a)) (result (f a))
  | Throw e => Run (trace m) (Throw e)
  end.

Definition emit (e : event) : M unit := Run [e] (Return tt).

Definition throw {A : Type} (e : exn) : M A := Run [] (Throw e).

(** The global [gs] (GlideSystem). *)
Module gs.

Record GlideUser : Type := User { user_id : string; groups : gset string }.

(** [gs.getProperty(name)]: the value of the property, [null] when there
    is none. *)
Definition getProperty (w : world) (name : string) : M (option string) :=
  emit (GetProperty name);; mret (sys_properties w !! name).

(** [gs.getUserByID(id)]: the user object, [null] when there is none. *)
Definition getUserByID (w : world) (id : option string) : M (option GlideUser) :=
  emit (GetUserByID id);;
  mret (i ← id; User i <$> user_directory w !! i).

(** [user.isMemberOf(group)]. *)
Definition isMemberOf (user : GlideUser) (group : string) : M bool :=
  emit (IsMemberOf (user_id user) group);;
  mret (bool_decide (group ∈ groups user)).

End gs.

(** [GlideRecord]: a query under construction, then a cursor over its
    result. *)
Module GlideRecord.

Record t : Type := Make {
  table : string;
  conditions : list (string * option string);
  pending : list row;     (* the records [next] has not reached yet *)
  current : option row    (* the record the cursor is on *)
}.

(** [new GlideRecord(table)] *)
Definition new (table : string) : t := Make table [] [] None.

(** [addQuery(field, value)]: one more equality the records must
    satisfy. *)
Definition addQuery (gr : t) (field : string) (value : option string) : t :=
  Make (table gr) (conditions gr ++ [(field, value)]) (pending gr) (current gr).

(** A record satisfies a condition when the field reads as the value,
    [null] included. *)
Definition satisfies (r : row) (c : string * option string) : Prop :=
  r !! c.1 = c.2.

Definition selected (cs : list (string * option string)) (r : row) : Prop :=
  Forall (satisfies r) cs.

#[export] Instance satisfies_dec r c : Decision (satisfies r c).
Proof. unfold satisfies. apply _. Defined.

#[export] Instance selected_dec cs r : Decision (selected cs r).
Proof. unfold selected. apply _. Defined.

(** The records of [table] in [w] selected by [cs], in store order. *)
Definition select (w : world) (table : string)
    (cs : list (string * option string)) : list row :=
  filter (selected cs) (default [] (tables w !! table)).

(** [query()] *)
Definition query (w : world) (gr : t) : M t :=
  emit (Query (table gr) (conditions gr));;
  mret (Make (table gr) (conditions gr)
          (select w (table gr) (conditions gr)) None).

(** [hasNext()] *)
Definition hasNext (gr : t) : bool :=
  match pending gr with
  | [] => false
  | _ :: _ => true
  end.

(** [next()]: moves to the next record and says whether there was one. *)
Definition next (gr : t) : bool * t :=
  match pending gr with
  | [] => (false, Make (table gr) (conditions gr) [] None)
  | r :: rs => (true, Make (table gr) (conditions gr) rs (Some r))
  end.

(** [getValue(field)]: [null] when the cursor is on no record or the field
    is empty. *)
Definition getValue (gr : t) (field : string) : option string :=
  r ← current gr; r !! field.

(** [getUniqueValue()]: the [sys_id] of the current record. *)
Definition getUniqueValue (gr : t) : option string := getValue gr "sys_id".

(** [get(field, value)]: loads the first record whose [field] is [value]
    and says whether there is one. *)
Definition get (w : world) (gr : t) (field : string) (value : option string)
    : M (bool * t) :=
  gr ← query w (addQuery gr field value);
  mret (next gr).

End GlideRecord.

(** ** InstanceConfig ([src/InstanceConfig.js]) *)

Module InstanceConfig.

Record t : Type := Make {
  instanceId : option string;
  instance : GlideRecord.t
}.

Definition initialize (w : world) : M t :=
  instanceId ← gs.getProperty w "instance_name";
  let instance := GlideRecord.new "x_448357_instanc_0_instance" in
  found ← GlideRecord.get w instance "name" instanceId;
  mret (Make instanceId found.2).

Definition getName (this : t) : option string :=
  GlideRecord.getValue (instance this) "name".

Definition _lookup (w : world) (this : t) (key : option string)
    : M (option string) :=
  let property := GlideRecord.new "x_448357_instanc_0_property_scope" in
  let property :=
    GlideRecord.addQuery property "instance"
      (GlideRecord.getUniqueValue (instance this)) in
  let property := GlideRecord.addQuery property "property.key" key in
  property ← GlideRecord.query w property;
  if GlideRecord.hasNext property then
    let property := (GlideRecord.next property).2 in
    mret (GlideRecord.getValue property "value")
  else mret None.

Definition _getDefault (w : world) (this : t) (key : option string)
    : M (option string) :=
  let property := GlideRecord.new "x_448357_instanc_0_property" in
  let property := GlideRecord.addQuery property "key" key in
  property ← GlideRecord.query w property;
  if GlideRecord.hasNext property then
    let property := (GlideRecord.next property).2 in
    mret (GlideRecord.getValue property "default_value")
  else mret None.

Definition getKey (w : world) (this : t) (key : option string)
    : M (option string) :=
  value ← _lookup w this key;
  match value with
  | Some v => mret (Some v)
  | None => _getDefault w this key
  end.

End InstanceConfig.

(** ** MCK_MailHelper ([src/mckMailHelper.js]) *)

Module MCK_MailHelper.

Definition _emailModifier : string := ".test".

(** [String(v)] of a [string | null], as string concatenation applies
    it. *)
Definition ToString (v : option string) : string := default "null" v.

Definition _getReceivingAddresses (w : world) : M string :=
  addresses ← gs.getProperty w "mck.email.subProdEmail.ReceivingAddresses";
  mret (if JS.truthy_opt addresses
        then JS.toLowerCase (default "" addresses) else "").

Definition _getReceivingGroupIds (w : world) : M (list string) :=
  groupIds ← gs.getProperty w "mck.email.subProdEmail.ReceivingGroupIds";
  mret (if JS.truthy_opt groupIds
        then JS.split "," (default "" groupIds) else []).

(** [emailString.match] is a method call: it throws on [null]. *)
Definition _extractEmailAddress (emailString : option string) : M string :=
  match emailString with
  | None => throw TypeError
  | Some s =>
      mret (match JS.match_emailRegex s with
            | Some group1 => group1
            | None => s
            end)
  end.

Definition _shouldSkipModification (emailAddress receivingAddresses : string)
    : bool :=
  let isAlreadyModified :=
    negb (JS.indexOf emailAddress _emailModifier =? -1) in
  let isWhitelisted :=
    negb (JS.indexOf receivingAddresses (JS.toLowerCase emailAddress) =? -1) in
  isAlreadyModified || isWhitelisted.

(** The loop over [receivingGroupIds] of [_isUserInAuthorizedGroup]. *)
Fixpoint isMemberOf_some (user : gs.GlideUser) (receivingGroupIds : list string)
    : M bool :=
  match receivingGroupIds with
  | [] => mret false
  | groupId :: rest =>
      member ← gs.isMemberOf user groupId;
      if member : bool then mret true else isMemberOf_some user rest
  end.

Definition _isUserInAuthorizedGroup (w : world) (emailAddress : string)
    (receivingGroupIds : list string) : M bool :=
  let userRecord := GlideRecord.new "sys_user" in
  found ← GlideRecord.get w userRecord "email" (Some emailAddress);
  if negb found.1 then mret false
  else
    let userRecord := found.2 in
    user ← gs.getUserByID w (GlideRecord.getValue userRecord "sys_id");
    match user with
    | None => mret false
    | Some user => isMemberOf_some user receivingGroupIds
    end.

(** [originalEmailAddress.replace] is a method call: it throws on
    [null]. *)
Definition modifyRecipient (originalEmailAddress : option string)
    (separatedEmail : string) : M string :=
  if JS.truthy separatedEmail then
    let modifiedEmailAddress := separatedEmail +:+ _emailModifier in
    match originalEmailAddress with
    | None => throw TypeError
    | Some original =>
        mret (JS.replace original separatedEmail modifiedEmailAddress)
    end
  else mret (ToString originalEmailAddress +:+ _emailModifier).

Definition _processRecipient (w : world) (userEmail : option string)
    (receivingAddresses : string) (receivingGroupIds : list string)
    : M (option string) :=
  extractedEmail ← _extractEmailAddress userEmail;
  if _shouldSkipModification extractedEmail receivingAddresses then
    mret userEmail
  else
    authorized ← _isUserInAuthorizedGroup w extractedEmail receivingGroupIds;
    if authorized : bool then mret userEmail
    else
      modified ← modifyRecipient userEmail extractedEmail;
      mret (Some modified).

(** The loop of [addTestToAddresses]; [processedRecipients] is the array
    the results are pushed to. *)
Fixpoint processRecipients (w : world) (recipients : list (option string))
    (receivingAddresses : string) (receivingGroupIds : list string)
    (processedRecipients : list (option string)) : M (list (option string)) :=
  match recipients with
  | [] => mret processedRecipients
  | userEmail :: rest =>
      recipient ← _processRecipient w userEmail receivingAddresses
                    receivingGroupIds;
      processRecipients w rest receivingAddresses receivingGroupIds
        (processedRecipients ++ [recipient])
  end.

(** [recipients] is [None] when the argument is absent ([null] or
    [undefined]); an element is [None] when it is [null]. *)
Definition addTestToAddresses (w : world)
    (recipients : option (list (option string))) : M string :=
  match recipients with
  | None => mret ""
  | Some [] => mret ""
  | Some recipients =>
      receivingAddresses ← _getReceivingAddresses w;
      receivingGroupIds ← _getReceivingGroupIds w;
      processedRecipients ←
        processRecipients w recipients receivingAddresses receivingGroupIds [];
      mret (JS.join "," processedRecipients)
  end.

End MCK_MailHelper.

(** ** Vocabulary of the statements *)

(** The records of a table, in store order; a table that does not exist has
    none. *)
Definition records (w : world) (table : string) : list row :=
  default [] (tables w !! table).

(** [first_such P rows r]: [r] is the first record of [rows] with [P]. *)
Definition first_such (P : row → Prop) (rows : list row) (r : row) : Prop :=
  ∃ before after,
    rows = before ++ r :: after ∧ P r ∧ Forall (λ x, ¬ P x) before.

(** A PropertyOverride record of instance [id] for [key]. *)
Definition is_override (id key : option string) (r : row) : Prop :=
  r !! "instance" = id ∧ r !! "property.key" = key.

(** A PropertyDefault record for [key]. *)
Definition is_default (key : option string) (r : row) : Prop :=
  r !! "key" = key.

#[export] Instance is_override_dec id key r : Decision (is_override id key r).
Proof. unfold is_override. apply _. Defined.

#[export] Instance is_default_dec key r : Decision (is_default key r).
Proof. unfold is_default. apply _. Defined.

Definition property_scope : string := "x_448357_instanc_0_property_scope".
Definition property : string := "x_448357_instanc_0_property".

(** The resolution rule in the words of the specification: the value of the
    override record if there is one, else the value of the default record
    if there is one, else not found. *)
Definition resolve (w : world) (id key : option string) : option string :=
  match list_find (is_override id key) (records w property_scope) with
  | Some (_, r) => r !! "value"
  | None =>
      match list_find (is_default key) (records w property) with
      | Some (_, d) => d !! "default_value"
      | None => None
      end
  end.

(** The override query finds nothing usable for [key]: there is no override
    record, or the first one has an empty value. *)
Definition no_override_value (w : world) (id key : option string) : Prop :=
  Forall (λ r, ¬ is_override id key r) (records w property_scope)
  ∨ ∃ r, first_such (is_override id key) (records w property_scope) r
         ∧ r !! "value" = None.

(** *** Stores used as concrete inputs *)

(** Instance [dev], one override for key [k] whose value is empty, and a
    default [d] for [k]. *)
Definition store_empty_override : world :=
  World {[ "instance_name" := "dev" ]}
    {[ "x_448357_instanc_0_instance" :=
         [ ({[ "name" := "dev"; "sys_id" := "i1" ]} : row) ];
       "x_448357_instanc_0_property_scope" :=
         [ ({[ "instance" := "i1"; "property.key" := "k" ]} : row) ];
       "x_448357_instanc_0_property" :=
         [ ({[ "key" := "k"; "default_value" := "d" ]} : row) ] ]}
    ∅.

(** Instance [dev], an override [o] and a default [d] for key [k], and a
    default [e] for key [j]. *)
Definition store_config : world :=
  World {[ "instance_name" := "dev" ]}
    {[ "x_448357_instanc_0_instance" :=
         [ ({[ "name" := "dev"; "sys_id" := "i1" ]} : row) ];
       "x_448357_instanc_0_property_scope" :=
         [ ({[ "instance" := "i1"; "property.key" := "k"; "value" := "o" ]} : row) ];
       "x_448357_instanc_0_property" :=
         [ ({[ "key" := "k"; "default_value" := "d" ]} : row);
           ({[ "key" := "j"; "default_value" := "e" ]} : row) ] ]}
    ∅.

(** The InstanceConfig object [initialize] builds in these stores: the
    instance record [dev] is loaded. *)
Definition config_dev : InstanceConfig.t :=
  InstanceConfig.Make (Some "dev")
    (GlideRecord.Make "x_448357_instanc_0_instance" [("name", Some "dev")] []
       (Some ({[ "name" := "dev"; "sys_id" := "i1" ]} : row))).

(** A user record with e-mail address [e]. *)
Definition has_email (e : string) (r : row) : Prop := r !! "email" = Some e.

#[export] Instance has_email_dec e r : Decision (has_email e r).
Proof. unfold has_email. apply _. Defined.

Definition sys_user : string := "sys_user".

(** [occurs_in pat s]: [pat] is a substring of [s]. *)
Definition occurs_in (pat s : string) : Prop :=
  ∃ before rest, s = before +:+ pat +:+ rest.

(** No dollar sign among the characters of [s]. *)
Fixpoint no_dollar (s : string) : bool :=
  match s with
  | EmptyString => true
  | String c s' => negb (Ascii.eqb c "$") && no_dollar s'
  end.

(** No store events of kind [Query] in a trace. *)
Definition no_query (t : list event) : Prop :=
  ∀ table cs, Query table cs ∉ t.

(** What [_isUserInAuthorizedGroup] does once the user record [u] is
    loaded. *)
Definition after_user_record (w : world) (u : row) (gids : list string)
    : M bool :=
  user ← gs.getUserByID w (u !! "sys_id");
  match user with
  | None => mret false
  | Some user => MCK_MailHelper.isMemberOf_some user gids
  end.

(** A store with no whitelist, no exempt groups and no users. *)
Definition store_bare : world := World ∅ ∅ ∅.

(** A store whose whitelist is [whitelist], with no exempt groups and no
    users. *)
Definition store_whitelist (whitelist : string) : world :=
  World {[ "mck.email.subProdEmail.ReceivingAddresses" := whitelist ]} ∅ ∅.

(** A store with exempt groups [g1], [g2] and [g3], a user [boss@x.com] who
    is a member of [g2], and a user [dev@x.com] who is a member of no
    group. *)
Definition store_directory : world :=
  World {[ "mck.email.subProdEmail.ReceivingGroupIds" := "g1,g2,g3" ]}
    {[ "sys_user" :=
         [ ({[ "email" := "boss@x.com"; "sys_id" := "u1" ]} : row);
           ({[ "email" := "dev@x.com"; "sys_id" := "u2" ]} : row) ] ]}
    {[ "u1" := {[ "g2" ]}; "u2" := ∅ ]}.

(** *** Vocabulary of the further properties *)

Definition instance_table : string := "x_448357_instanc_0_instance".

(** An instance record named [id]. *)
Definition has_name (id : option string) (r : row) : Prop := r !! "name" = id.

#[export] Instance has_name_dec id r : Decision (has_name id r).
Proof. unfold has_name. apply _. Defined.

(** The character [c] is not among the characters of [s]. *)
Fixpoint lacks (c : ascii) (s : string) : bool :=
  match s with
  | EmptyString => true
  | String d s' => negb (Ascii.eqb d c) && lacks c s'
  end.

(** The number of store queries, and of property reads, in a trace. *)
Fixpoint queries (t : list event) : nat :=
  match t with
  | [] => 0%nat
  | Query _ _ :: t' => S (queries t')
  | _ :: t' => queries t'
  end.

Fixpoint reads (t : list event) : nat :=
  match t with
  | [] => 0%nat
  | GetProperty _ :: t' => S (reads t')
  | _ :: t' => reads t'
  end.

(** Calls to the user directory: [gs.getUserByID] and [isMemberOf]. *)
Definition directory_call (ev : event) : Prop :=
  match ev with
  | GetUserByID _ | IsMemberOf _ _ => True
  | GetProperty _ | Query _ _ => False
  end.

Definition ReceivingAddresses : string :=
  "mck.email.subProdEmail.ReceivingAddresses".
Definition ReceivingGroupIds : string :=
  "mck.email.subProdEmail.ReceivingGroupIds".

(** The whitelist string and the exempt groups a store configures, as
    [_getReceivingAddresses] and [_getReceivingGroupIds] return them. *)
Definition whitelist_of (w : world) : string :=
  if JS.truthy_opt (sys_properties w !! ReceivingAddresses)
  then JS.toLowerCase (default "" (sys_properties w !! ReceivingAddresses))
  else "".

Definition groupIds_of (w : world) : list string :=
  if JS.truthy_opt (sys_properties w !! ReceivingGroupIds)
  then JS.split "," (default "" (sys_properties w !! ReceivingGroupIds))
  else [].

(** [_processRecipient] returns [v] for the recipient [r]. *)
Definition processed (w : world) (ra : string) (gids : list string)
    (r v : string) : Prop :=
  result (MCK_MailHelper._processRecipient w (Some r) ra gids)
  = Return (Some v).

(** A store whose instance name matches no instance record: an override of
    instance [i1] and a default for key [k]. *)
Definition store_no_instance : world :=
  World {[ "instance_name" := "prod" ]}
    {[ "x_448357_instanc_0_instance" :=
         [ ({[ "name" := "dev"; "sys_id" := "i1" ]} : row) ];
       "x_448357_instanc_0_property_scope" :=
         [ ({[ "instance" := "i1"; "property.key" := "k"; "value" := "o" ]} : row) ];
       "x_448357_instanc_0_property" :=
         [ ({[ "key" := "k"; "default_value" := "d" ]} : row) ] ]}
    ∅.

(** The InstanceConfig object [initialize] builds in [store_no_instance]: no
    instance record is loaded. *)
Definition config_unloaded : InstanceConfig.t :=
  InstanceConfig.Make (Some "prod")
    (GlideRecord.Make "x_448357_instanc_0_instance" [("name", Some "prod")] []
       None).

(** A store with two user records for the same address: the first is a
    member of no exempt group, the second of [g1]. *)
Definition store_two_users : world :=
  World {[ "mck.email.subProdEmail.ReceivingGroupIds" := "g1,g2";
           "mck.email.subProdEmail.ReceivingAddresses" := "Alice@X.com" ]}
    {[ "sys_user" :=
         [ ({[ "email" := "twin@x.com"; "sys_id" := "u1" ]} : row);
           ({[ "email" := "twin@x.com"; "sys_id" := "u2" ]} : row) ] ]}
    {[ "u1" := ∅; "u2" := {[ "g1" ]} ]}.

(** ** The monad *)

Lemma bind_Return {A B : Type} (t : list event) (a : A) (f : A → M B) :
  Run t (Return a) ≫= f = Run (t ++ trace (f a)) (result (f a)).
Proof. reflexivity. Qed.

Lemma bind_Throw {A B : Type} (t : list event) (e : exn) (f : A → M B) :
  Run t (Throw e) ≫= f = Run t (Throw e).
Proof. reflexivity. Qed.

Lemma M_eta {A : Type} (m : M A) : Run (trace m) (result m) = m.
Proof. by destruct m. Qed.

Lemma mret_bind {A B : Type} (a : A) (f : A → M B) : mret a ≫= f = f a.
Proof. unfold mret, M_ret. rewrite bind_Return. apply M_eta. Qed.

(** ** Records and queries *)

Lemma first_such_head (P : row → Prop) `{!∀ r, Decision (P r)} rows r :
  first_such P rows r → head (filter P rows) = Some r.
Proof.
  intros (before & after & -> & HP & Hbefore).
  induction Hbefore as [|x before Hx _ IH]; simpl.
  - by rewrite filter_cons_True.
  - by rewrite filter_cons_False.
Qed.

Lemma none_such_filter (P : row → Prop) `{!∀ r, Decision (P r)} rows :
  Forall (λ x, ¬ P x) rows → filter P rows = [].
Proof.
  induction 1 as [|x rows Hx _ IH]; [done|].
  by rewrite filter_cons_False.
Qed.

Lemma head_filter_cases (P : row → Prop) `{!∀ r, Decision (P r)} rows :
  (∃ r, first_such P rows r) ∨ Forall (λ x, ¬ P x) rows.
Proof.
  induction rows as [|x rows IH]; [by right|].
  destruct (decide (P x)) as [Hx|Hx].
  - left. exists x, [], rows. by repeat split.
  - destruct IH as [(r & before & after & -> & HP & Hb)|Hnone].
    + left. exists r, (x :: before), after. repeat split; [done|by constructor].
    + right. by constructor.
Qed.

Lemma first_such_unique (P : row → Prop) rows r1 r2 :
  first_such P rows r1 → first_such P rows r2 → r1 = r2.
Proof.
  intros (b1 & a1 & -> & HP1 & Hb1) (b2 & a2 & Heq & HP2 & Hb2).
  revert b2 Heq Hb2. induction Hb1 as [|x b1 Hx _ IH]; intros b2 Heq Hb2.
  - destruct b2 as [|y b2]; simpl in *; [congruence|].
    injection Heq as -> _. by inversion Hb2; subst.
  - destruct b2 as [|y b2]; simpl in *.
    + injection Heq as -> _. done.
    + injection Heq as -> Heq. inversion Hb2; subst. by eapply IH.
Qed.

Lemma first_such_not_none (P : row → Prop) rows r :
  first_such P rows r → Forall (λ x, ¬ P x) rows → False.
Proof.
  intros (before & after & -> & HP & _) Hnone.
  apply Forall_app in Hnone as [_ Hnone]. by inversion Hnone.
Qed.

Lemma selected_override id key r :
  GlideRecord.selected [("instance", id); ("property.key", key)] r
  ↔ is_override id key r.
Proof.
  unfold GlideRecord.selected, is_override, GlideRecord.satisfies. split.
  - intros H. inversion H as [|? ? H1 H']; subst.
    inversion H' as [|? ? H2 _]; subst. done.
  - intros [H1 H2]. by repeat constructor.
Qed.

Lemma selected_default key r :
  GlideRecord.selected [("key", key)] r ↔ is_default key r.
Proof.
  unfold GlideRecord.selected, is_default, GlideRecord.satisfies. split.
  - intros H. by inversion H.
  - intros H. by repeat constructor.
Qed.

Lemma select_override w id key :
  GlideRecord.select w property_scope [("instance", id); ("property.key", key)]
  = filter (is_override id key) (records w property_scope).
Proof. apply list_filter_iff. intros r. apply selected_override. Qed.

Lemma select_default w key :
  GlideRecord.select w property [("key", key)]
  = filter (is_default key) (records w property).
Proof. apply list_filter_iff. intros r. apply selected_default. Qed.

(** ** InstanceConfig *)

Section InstanceConfig_facts.
Import InstanceConfig.

Variable w : world.
Variable this : InstanceConfig.t.
Variable key : option string.

Let id : option string := GlideRecord.getUniqueValue (instance this).

Lemma _lookup_run :
  _lookup w this key
  = Run [Query property_scope [("instance", id); ("property.key", key)]]
      (Return (r ← head (filter (is_override id key) (records w property_scope));
               r !! "value")).
Proof.
  unfold _lookup, GlideRecord.query, GlideRecord.hasNext, GlideRecord.next.
  cbn. fold property_scope. fold id. rewrite select_override.
  by destruct (filter _ _).
Qed.

Lemma _getDefault_run :
  _getDefault w this key
  = Run [Query property [("key", key)]]
      (Return (r ← head (filter (is_default key) (records w property));
               r !! "default_value")).
Proof.
  unfold _getDefault, GlideRecord.query, GlideRecord.hasNext, GlideRecord.next.
  cbn. fold property. rewrite select_default.
  by destruct (filter _ _).
Qed.

End InstanceConfig_facts.

Section getKey_facts.
Import InstanceConfig.

Variable w : world.
Variable this : InstanceConfig.t.
Variable key : option string.

Let id : option string := GlideRecord.getUniqueValue (instance this).
Let overrides : list row := records w property_scope.
Let defaults : list row := records w property.

Lemma _lookup_override r :
  first_such (is_override id key) overrides r →
  result (_lookup w this key) = Return (r !! "value").
Proof.
  intros Hr. rewrite _lookup_run. cbn.
  by rewrite (first_such_head _ _ _ Hr).
Qed.

Lemma _lookup_none :
  no_override_value w id key → result (_lookup w this key) = Return None.
Proof.
  intros [Hnone|(r & Hr & Hv)].
  - rewrite _lookup_run. cbn. fold overrides.
    by rewrite (none_such_filter _ _ Hnone).
  - by rewrite (_lookup_override r Hr), Hv.
Qed.

Lemma getKey_override r x :
  first_such (is_override id key) overrides r →
  r !! "value" = Some x →
  getKey w this key
  = Run [Query property_scope [("instance", id); ("property.key", key)]]
      (Return (Some x)).
Proof.
  intros Hr Hx. unfold getKey. rewrite _lookup_run. cbn. fold id overrides.
  rewrite (first_such_head _ _ _ Hr). cbn. by rewrite Hx.
Qed.

Lemma getKey_falls_back :
  no_override_value w id key →
  getKey w this key
  = Run [Query property_scope [("instance", id); ("property.key", key)];
         Query property [("key", key)]]
      (Return (r ← head (filter (is_default key) defaults);
               r !! "default_value")).
Proof.
  intros Hno. apply _lookup_none in Hno. revert Hno.
  unfold getKey. rewrite _lookup_run, _getDefault_run. cbn. fold id.
  intros [= ->]. reflexivity.
Qed.

Lemma override_cases :
  (∃ r x, first_such (is_override id key) overrides r ∧ r !! "value" = Some x)
  ∨ no_override_value w id key.
Proof.
  destruct (head_filter_cases (is_override id key) overrides)
    as [(r & Hr)|Hnone]; [|right; by left].
  destruct (r !! "value") as [x|] eqn:Hx.
  - left. by exists r, x.
  - right. right. by exists r.
Qed.

Lemma override_exclusive r x :
  first_such (is_override id key) overrides r →
  r !! "value" = Some x →
  no_override_value w id key → False.
Proof.
  intros Hr Hx [Hno|(r' & Hr' & Hv)].
  - by eapply first_such_not_none.
  - rewrite (first_such_unique _ _ _ _ Hr' Hr) in Hv. congruence.
Qed.

Lemma getKey_returns : ∃ v, result (getKey w this key) = Return v.
Proof.
  destruct override_cases as [(r & x & Hr & Hx)|Hno].
  - rewrite (getKey_override r x Hr Hx). by eexists.
  - rewrite (getKey_falls_back Hno). by eexists.
Qed.

(** C1, as amended: [getKey] never throws; it returns the value of the
    first override record of the loaded instance for the key when that
    value is not empty, whether or not a default exists; when there is no
    override record, or the first one has an empty value, it returns the
    default value of the first default record for the key, and not found
    ([null]) when there is no default record either. *)
Theorem C1_getKey_resolution :
  ∃ v, result (getKey w this key) = Return v
    ∧ (∀ r x, first_such (is_override id key) overrides r →
              r !! "value" = Some x → v = Some x)
    ∧ (∀ d, no_override_value w id key →
            first_such (is_default key) defaults d →
            v = d !! "default_value")
    ∧ (no_override_value w id key →
       Forall (λ d, ¬ is_default key d) defaults → v = None).
Proof.
  destruct override_cases as [(r & x & Hr & Hx)|Hno].
  - exists (Some x). split; [|split; [|split]].
    + by rewrite (getKey_override r x Hr Hx).
    + intros r' x' Hr' Hx'.
      rewrite (first_such_unique _ _ _ _ Hr' Hr) in Hx'. congruence.
    + intros d Hno. exfalso. by eapply override_exclusive.
    + intros Hno. exfalso. by eapply override_exclusive.
  - eexists. split; [|split; [|split]].
    + by rewrite (getKey_falls_back Hno).
    + intros r x Hr Hx. exfalso. by eapply override_exclusive.
    + intros d _ Hd. by rewrite (first_such_head _ _ _ Hd).
    + intros _ Hd. by rewrite (none_such_filter _ _ Hd).
Qed.

(** C6: [getKey(null)] and [getKey("")] do not throw; when the override
    query finds no record, the key goes as it is, by equality, through the
    override query and then the default query, and the result is not
    found ([null]) when no default record has that literal key either. *)
Theorem C6_getKey_literal_key :
  key = None ∨ key = Some "" →
  (∃ v, result (getKey w this key) = Return v)
  ∧ (Forall (λ r, ¬ is_override id key r) overrides →
     Forall (λ d, ¬ is_default key d) defaults →
     getKey w this key
     = Run [Query property_scope [("instance", id); ("property.key", key)];
            Query property [("key", key)]]
         (Return None)).
Proof.
  intros _. split; [apply getKey_returns|].
  intros Ho Hd. rewrite getKey_falls_back; [|by left].
  by rewrite (none_such_filter _ _ Hd).
Qed.

End getKey_facts.

(** ** JavaScript strings *)

Lemma append_assoc (a b c : string) : (a +:+ b) +:+ c = a +:+ b +:+ c.
Proof. induction a as [|x a IH]; simpl; [done|by rewrite IH]. Qed.

Lemma append_empty_r (a : string) : a +:+ "" = a.
Proof. induction a as [|x a IH]; simpl; [done|by rewrite IH]. Qed.

Lemma strip_prefix_Some p s rest :
  JS.strip_prefix p s = Some rest ↔ s = p +:+ rest.
Proof.
  revert s. induction p as [|a p IH]; intros s; simpl.
  - split; congruence.
  - destruct s as [|b s]; [split; discriminate|].
    destruct (Ascii.eqb_spec a b) as [->|Hne].
    + rewrite IH. split; congruence.
    + split; [discriminate|congruence].
Qed.

Lemma strip_prefix_self s : JS.strip_prefix s s = Some "".
Proof. apply strip_prefix_Some. by rewrite append_empty_r. Qed.

Lemma search_Some pat s before rest :
  JS.search pat s = Some (before, rest) → s = before +:+ pat +:+ rest.
Proof.
  revert before. induction s as [|c s IH]; intros before; simpl.
  - destruct (JS.strip_prefix pat "") as [rest'|] eqn:Hp; [|discriminate].
    intros [= <- <-]. simpl. by apply strip_prefix_Some.
  - destruct (JS.strip_prefix pat (String c s)) as [rest'|] eqn:Hp.
    + intros [= <- <-]. simpl. by apply strip_prefix_Some.
    + destruct (JS.search pat s) as [[b r]|]; [|discriminate].
      intros [= <- <-]. simpl. f_equal. by apply IH.
Qed.

Lemma search_here pat s rest :
  JS.strip_prefix pat s = Some rest → JS.search pat s = Some ("", rest).
Proof. intros H. destruct s; simpl; by rewrite H. Qed.

Lemma search_occurs pat s :
  occurs_in pat s → is_Some (JS.search pat s).
Proof.
  intros (before & rest & ->). induction before as [|c before IH]; simpl.
  - rewrite (search_here pat _ rest); [done|]. by apply strip_prefix_Some.
  - destruct (JS.strip_prefix pat _); [done|].
    destruct IH as [[b r] ->]. done.
Qed.

(** [indexOf] decides substring containment. *)
Lemma indexOf_occurs s pat : JS.indexOf s pat ≠ -1 ↔ occurs_in pat s.
Proof.
  unfold JS.indexOf. split.
  - destruct (JS.search pat s) as [[b r]|] eqn:Hs; [|done].
    intros _. exists b, r. by apply search_Some.
  - intros [[b r] ->]%search_occurs. lia.
Qed.

Lemma includes_occurs s pat :
  negb (JS.indexOf s pat =? -1) = true ↔ occurs_in pat s.
Proof.
  rewrite <- indexOf_occurs, negb_true_iff, Z.eqb_neq. done.
Qed.

Lemma occurs_in_empty s : occurs_in "" s.
Proof. by exists "", s. Qed.

Lemma search_self s : JS.search s s = Some ("", "").
Proof. apply search_here, strip_prefix_self. Qed.

Lemma no_dollar_app a b : no_dollar (a +:+ b) = no_dollar a && no_dollar b.
Proof. induction a as [|c a IH]; simpl; [done|]. by rewrite IH, andb_assoc. Qed.

Lemma GetSubstitution_no_dollar matched before rest replacement :
  no_dollar replacement = true →
  JS.GetSubstitution matched before rest replacement = replacement.
Proof.
  induction replacement as [|c r IH]; simpl; [done|].
  intros [Hc Hr]%andb_true_iff. apply negb_true_iff in Hc. rewrite Hc.
  by rewrite IH.
Qed.

(** The expression matches nowhere in a string without [<]. *)
Lemma match_emailRegex_no_bracket s :
  ¬ occurs_in "<" s → JS.match_emailRegex s = None.
Proof.
  induction s as [|c s IH]; simpl; [done|]. intros Hno.
  destruct (Ascii.eqb_spec c "<") as [->|Hne].
  - destruct Hno. by exists "", s.
  - apply IH. intros (b & r & ->). apply Hno. by exists (String c b), r.
Qed.

(** A wrapped recipient: the group is the text between the first [<] and
    the [>] that follows it. *)
Lemma match_emailRegex_wrapped name address rest :
  ¬ occurs_in "<" name → ¬ occurs_in ">" address →
  JS.match_emailRegex (name +:+ "<" +:+ address +:+ ">" +:+ rest)
  = Some address.
Proof.
  intros Hname Haddr.
  assert (Hg : JS.group_then_close (address +:+ ">" +:+ rest) = Some address).
  { clear Hname. induction address as [|c a IH]; simpl in *; [done|].
    destruct (Ascii.eqb_spec c ">") as [->|Hne].
    - destruct Haddr. by exists "", a.
    - rewrite IH; [done|]. intros (b & r & ->). apply Haddr.
      by exists (String c b), r. }
  simpl in *. induction name as [|c n IH]; simpl.
  - by rewrite Hg.
  - destruct (Ascii.eqb_spec c "<") as [->|Hne].
    + destruct Hname. by exists "", n.
    + apply IH. intros (b & r & ->). apply Hname. by exists (String c b), r.
Qed.

(** ** MCK_MailHelper *)

Section MailHelper_facts.
Import MCK_MailHelper.

Variable w : world.

Lemma selected_email e r :
  GlideRecord.selected [("email", Some e)] r ↔ has_email e r.
Proof.
  unfold GlideRecord.selected, has_email, GlideRecord.satisfies. split.
  - intros H. by inversion H.
  - intros H. by repeat constructor.
Qed.

Lemma select_email e :
  GlideRecord.select w sys_user [("email", Some e)]
  = filter (has_email e) (records w sys_user).
Proof. apply list_filter_iff. intros r. apply selected_email. Qed.


Lemma isMemberOf_some_none user gids :
  Forall (λ x, x ∉ gs.groups user) gids →
  isMemberOf_some user gids
  = Run (IsMemberOf (gs.user_id user) <$> gids) (Return false).
Proof.
  induction 1 as [|x gids Hx _ IH]; simpl; [done|].
  unfold gs.isMemberOf. cbn. rewrite bool_decide_eq_false_2 by done.
  by rewrite IH.
Qed.

Lemma isMemberOf_some_shape user gids :
  ∃ b, result (isMemberOf_some user gids) = Return b
       ∧ no_query (trace (isMemberOf_some user gids)).
Proof.
  induction gids as [|g gids (b & Hb & Hq)]; simpl.
  - exists false. split; [done|]. intros table cs Hin. by inversion Hin.
  - unfold gs.isMemberOf. cbn. destruct (bool_decide _).
    + exists true. split; [done|]. intros table cs Hin. cbn in Hin.
      apply list_elem_of_singleton in Hin. discriminate.
    + exists b. split; [done|]. intros table cs Hin. cbn in Hin.
      apply elem_of_cons in Hin as [?|Hin]; [discriminate|].
      by eapply Hq.
Qed.

Lemma _isUserInAuthorizedGroup_run e gids :
  _isUserInAuthorizedGroup w e gids
  = match head (filter (has_email e) (records w sys_user)) with
    | None => Run [Query sys_user [("email", Some e)]] (Return false)
    | Some u =>
        Run (Query sys_user [("email", Some e)]
               :: trace (after_user_record w u gids))
          (result (after_user_record w u gids))
    end.
Proof.
  unfold _isUserInAuthorizedGroup, GlideRecord.get, GlideRecord.query,
    GlideRecord.next. cbn. fold sys_user. rewrite select_email.
  destruct (filter _ _) as [|u us]; [done|]. cbn.
  reflexivity.
Qed.

Lemma after_user_record_shape u gids :
  ∃ t b, after_user_record w u gids = Run (GetUserByID (u !! "sys_id") :: t) (Return b)
         ∧ no_query t.
Proof.
  unfold after_user_record, gs.getUserByID. cbn.
  destruct (u !! "sys_id" ≫= _) as [user|].
  - destruct (isMemberOf_some_shape user gids) as (b & Hb & Hq).
    exists (trace (isMemberOf_some user gids)), b. by rewrite <- Hb.
  - exists [], false. split; [done|]. intros table cs Hin. by inversion Hin.
Qed.


(** The directory is queried once, first, by equality on the address. *)
Lemma _isUserInAuthorizedGroup_shape e gids :
  ∃ t b, _isUserInAuthorizedGroup w e gids
         = Run (Query sys_user [("email", Some e)] :: t) (Return b)
         ∧ no_query t.
Proof.
  rewrite _isUserInAuthorizedGroup_run.
  destruct (head _) as [u|].
  - destruct (after_user_record_shape u gids) as (t & b & -> & Hq).
    exists (GetUserByID (u !! "sys_id") :: t), b. split; [done|].
    intros table cs Hin. apply elem_of_cons in Hin as [?|Hin]; [discriminate|].
    by eapply Hq.
  - exists [], false. split; [done|]. intros table cs Hin. by inversion Hin.
Qed.



(** A recipient that is a string: the steps of [_processRecipient]. *)
Lemma _processRecipient_skip r e ra gids :
  _extractEmailAddress (Some r) = mret e →
  _shouldSkipModification e ra = true →
  _processRecipient w (Some r) ra gids = mret (Some r).
Proof.
  intros He Hskip. unfold _processRecipient.
  by rewrite He, mret_bind, Hskip.
Qed.

Lemma _processRecipient_no_skip r e ra gids :
  _extractEmailAddress (Some r) = mret e →
  _shouldSkipModification e ra = false →
  _processRecipient w (Some r) ra gids
  = (authorized ← _isUserInAuthorizedGroup w e gids;
     if authorized : bool then mret (Some r)
     else modified ← modifyRecipient (Some r) e; mret (Some modified)).
Proof.
  intros He Hskip. unfold _processRecipient.
  by rewrite He, mret_bind, Hskip.
Qed.

Lemma _shouldSkipModification_empty ra : _shouldSkipModification "" ra = true.
Proof.
  unfold _shouldSkipModification. apply orb_true_iff. right.
  apply includes_occurs, occurs_in_empty.
Qed.

(** A string that survives the skip rules is not empty, so that
    [modifyRecipient] goes through [replace]. *)
Lemma modifyRecipient_no_skip r e ra :
  _shouldSkipModification e ra = false →
  modifyRecipient (Some r) e = mret (JS.replace r e (e +:+ _emailModifier)).
Proof.
  intros Hskip. destruct e as [|c e]; [|done].
  by rewrite _shouldSkipModification_empty in Hskip.
Qed.


Lemma _extractEmailAddress_string r :
  ∃ e, _extractEmailAddress (Some r) = mret e.
Proof. by eexists. Qed.

Lemma _processRecipient_string r ra gids :
  ∃ t v, _processRecipient w (Some r) ra gids = Run t (Return (Some v)).
Proof.
  destruct (_extractEmailAddress_string r) as (e & He).
  destruct (_shouldSkipModification e ra) eqn:Hskip.
  - exists [], r. by apply (_processRecipient_skip r e).
  - rewrite (_processRecipient_no_skip r e ra gids He Hskip).
    rewrite (modifyRecipient_no_skip r e ra Hskip).
    destruct (_isUserInAuthorizedGroup_shape e gids) as (t & b & -> & _).
    destruct b; cbn; by eexists _, _.
Qed.

Lemma processRecipients_strings rs ra gids acc :
  ∃ t vs, processRecipients w (Some <$> rs) ra gids acc
          = Run t (Return (acc ++ (Some <$> vs))).
Proof.
  revert acc. induction rs as [|r rs IH]; intros acc.
  - exists [], []. cbn. by rewrite app_nil_r.
  - cbn -[_processRecipient].
    destruct (_processRecipient_string r ra gids) as (t & v & ->).
    destruct (IH (acc ++ [Some v])) as (t' & vs & Hrest).
    exists (t ++ t'), (v :: vs). cbn. cbn in Hrest. rewrite Hrest. cbn.
    by rewrite <- app_assoc.
Qed.

(** No exception for a list of strings. *)
Lemma addTestToAddresses_strings rs :
  ∃ v, result (addTestToAddresses w (Some (Some <$> rs))) = Return v.
Proof.
  destruct rs as [|r rs]; [by exists ""|].
  unfold addTestToAddresses. change (Some <$> r :: rs) with (Some r :: (Some <$> rs)).
  unfold _getReceivingAddresses, _getReceivingGroupIds, gs.getProperty.
  cbn -[processRecipients].
  match goal with
  | |- context [processRecipients w _ ?ra ?gids []] =>
      destruct (processRecipients_strings (r :: rs) ra gids []) as (t & vs & H)
  end.
  change (Some <$> r :: rs) with (Some r :: (Some <$> rs)) in H.
  rewrite H. by eexists.
Qed.

(** One recipient that [_processRecipient] returns as it is, whatever the
    whitelist and the groups. *)
Lemma addTestToAddresses_single_unchanged r :
  (∀ ra gids, _processRecipient w (Some r) ra gids = mret (Some r)) →
  addTestToAddresses w (Some [Some r])
  = Run [GetProperty "mck.email.subProdEmail.ReceivingAddresses";
         GetProperty "mck.email.subProdEmail.ReceivingGroupIds"]
      (Return r).
Proof.
  intros H. unfold addTestToAddresses, processRecipients.
  unfold _getReceivingAddresses, _getReceivingGroupIds, gs.getProperty.
  cbn -[_processRecipient]. by rewrite H.
Qed.

(** C5: a recipient whose extracted address already contains [.test] is
    returned as it is, whatever the whitelist and the groups, and without
    consulting the directory. *)
Theorem C5_already_processed_unchanged r e :
  _extractEmailAddress (Some r) = mret e →
  occurs_in ".test" e →
  (∀ ra gids, _processRecipient w (Some r) ra gids = mret (Some r))
  ∧ addTestToAddresses w (Some [Some r])
    = Run [GetProperty "mck.email.subProdEmail.ReceivingAddresses";
           GetProperty "mck.email.subProdEmail.ReceivingGroupIds"]
        (Return r).
Proof.
  intros He Hocc.
  assert (H : ∀ ra gids, _processRecipient w (Some r) ra gids = mret (Some r)).
  { intros ra gids. apply (_processRecipient_skip r e); [done|].
    unfold _shouldSkipModification. apply orb_true_iff. left.
    by apply includes_occurs. }
  split; [done|]. by apply addTestToAddresses_single_unchanged.
Qed.

(** C9: a recipient whose extracted address is the empty string is returned
    as it is for every whitelist string, the empty one included: the empty
    string occurs in every string, so that rule B applies. *)
Theorem C9_empty_address_unchanged r :
  _extractEmailAddress (Some r) = mret "" →
  (∀ ra, negb (JS.indexOf ra (JS.toLowerCase "") =? -1) = true)
  ∧ (∀ ra gids, _processRecipient w (Some r) ra gids = mret (Some r))
  ∧ addTestToAddresses w (Some [Some r])
    = Run [GetProperty "mck.email.subProdEmail.ReceivingAddresses";
           GetProperty "mck.email.subProdEmail.ReceivingGroupIds"]
        (Return r).
Proof.
  intros He.
  assert (H : ∀ ra gids, _processRecipient w (Some r) ra gids = mret (Some r)).
  { intros ra gids. apply (_processRecipient_skip r ""); [done|].
    apply _shouldSkipModification_empty. }
  split; [|split; [done|by apply addTestToAddresses_single_unchanged]].
  intros ra. apply includes_occurs, occurs_in_empty.
Qed.

(** C7: for an absent and for an empty list of recipients the result is the
    empty string, and nothing is read from the platform. *)
Theorem C7_no_recipients :
  addTestToAddresses w None = Run [] (Return "")
  ∧ addTestToAddresses w (Some []) = Run [] (Return "").
Proof. by split. Qed.

(** C2, as amended: rule B applies when the lowercased extracted address
    occurs as a substring in the whitelist string, and the recipient is then
    returned as it is; so a whitelist string [ajohn@x.com] also matches the
    address [john@x.com], and in every store whose whitelist string is
    [ajohn@x.com] the recipient [john@x.com] is left unchanged. *)
Theorem C2_address_within_whitelist :
  (∀ r e ra gids,
     _extractEmailAddress (Some r) = mret e →
     occurs_in (JS.toLowerCase e) ra →
     _processRecipient w (Some r) ra gids = mret (Some r))
  ∧ (sys_properties w !! "mck.email.subProdEmail.ReceivingAddresses"
       = Some "ajohn@x.com" →
     result (addTestToAddresses w (Some [Some "john@x.com"]))
     = Return "john@x.com").
Proof.
  split.
  - intros r e ra gids He Hocc. apply (_processRecipient_skip r e); [done|].
    unfold _shouldSkipModification. apply orb_true_iff. right.
    by apply includes_occurs.
  - intros Hw. unfold addTestToAddresses, processRecipients.
    unfold _getReceivingAddresses, _getReceivingGroupIds, gs.getProperty.
    cbn -[_processRecipient]. rewrite Hw. cbn -[_processRecipient].
    by rewrite (_processRecipient_skip "john@x.com" "john@x.com").
Qed.

End MailHelper_facts.

(** ** What holds of [modifyRecipient], and where it stops holding *)

Section modifyRecipient_facts.
Import MCK_MailHelper.

(** A string without [<] is its own address: the expression does not
    match. *)
Lemma _extractEmailAddress_malformed s :
  ¬ occurs_in "<" s → _extractEmailAddress (Some s) = mret s.
Proof.
  intros Hno. unfold _extractEmailAddress.
  by rewrite (match_emailRegex_no_bracket s Hno).
Qed.

(** A bare address without dollar sign gets the suffix. *)
Lemma modifyRecipient_bare s :
  s ≠ "" → no_dollar s = true →
  modifyRecipient (Some s) s = mret (s +:+ ".test").
Proof.
  intros Hne Hs. unfold modifyRecipient.
  destruct s as [|c s]; [done|]. cbn [JS.truthy]. f_equal.
  unfold JS.replace. rewrite search_self.
  rewrite GetSubstitution_no_dollar.
  - simpl. by rewrite append_empty_r.
  - rewrite no_dollar_app. by rewrite Hs.
Qed.

(** A prefix of [name<...] lies within [name] or contains the [<]. *)
Lemma prefix_before_bracket a r name x :
  a +:+ r = name +:+ "<" +:+ x →
  (∃ k, name = a +:+ k) ∨ occurs_in "<" a.
Proof.
  revert name. induction a as [|c a IH]; intros name; simpl.
  - intros _. left. by exists name.
  - destruct name as [|d name]; simpl.
    + intros [= -> _]. right. by exists "", a.
    + intros [= -> H]. destruct (IH name H) as [[k ->]|(b & t & ->)].
      * left. by exists k.
      * right. by exists (String d b), t.
Qed.

(** The first occurrence of the address is the bracketed one when the
    address has no [<] and does not occur in the display name. *)
Lemma search_wrapped name address tail :
  address ≠ "" → ¬ occurs_in "<" address → ¬ occurs_in address name →
  JS.search address (name +:+ "<" +:+ address +:+ tail)
  = Some (name +:+ "<", tail).
Proof.
  intros Hne Hbracket Hname.
  assert (Hnot : ∀ n, ¬ occurs_in address n →
            JS.strip_prefix address (n +:+ "<" +:+ address +:+ tail) = None).
  { intros n Hn.
    destruct (JS.strip_prefix address _) as [r|] eqn:Hp; [|done].
    apply strip_prefix_Some in Hp. symmetry in Hp.
    apply prefix_before_bracket in Hp as [[k ->]|Hp]; [|done].
    destruct Hn. by exists "", k. }
  induction name as [|c name IH].
  - pose proof (Hnot "" Hname) as H0. simpl in *. rewrite H0.
    rewrite (search_here address _ tail); [done|].
    by apply strip_prefix_Some.
  - pose proof (Hnot _ Hname) as H0. simpl in *. rewrite H0.
    rewrite IH; [done|]. intros (b & t & ->). apply Hname.
    by exists (String c b), t.
Qed.

(** A wrapped recipient gets the suffix inside the brackets when the
    address has no dollar sign, no [<], and does not occur in the display
    name. *)
Lemma modifyRecipient_wrapped name address rest :
  address ≠ "" → no_dollar address = true →
  ¬ occurs_in "<" address → ¬ occurs_in address name →
  modifyRecipient (Some (name +:+ "<" +:+ address +:+ ">" +:+ rest)) address
  = mret (name +:+ "<" +:+ address +:+ ".test" +:+ ">" +:+ rest).
Proof.
  intros Hne Hdollar Hbracket Hname. unfold modifyRecipient.
  destruct address as [|c address]; [done|]. cbn [JS.truthy]. f_equal.
  unfold JS.replace. rewrite (search_wrapped name _ (">" +:+ rest)) by done.
  rewrite GetSubstitution_no_dollar.
  - by rewrite !append_assoc.
  - rewrite no_dollar_app. by rewrite Hdollar.
Qed.

(** The wrapped recipient of the specification's example. *)
Example modifyRecipient_John_Doe :
  modifyRecipient (Some "John Doe <john@x.com>") "john@x.com"
  = mret "John Doe <john@x.com.test>".
Proof. reflexivity. Qed.

Example addTestToAddresses_John_Doe :
  result (addTestToAddresses store_bare (Some [Some "John Doe <john@x.com>"]))
  = Return "John Doe <john@x.com.test>".
Proof. reflexivity. Qed.

(** Two bare addresses, neither whitelisted nor exempt. *)
Example addTestToAddresses_two_bare :
  result (addTestToAddresses store_bare (Some [Some "a@x.com"; Some "b@x.com"]))
  = Return "a@x.com.test,b@x.com.test".
Proof. reflexivity. Qed.

(** A [null] recipient throws, at [emailString.match]. *)
Example addTestToAddresses_null_recipient :
  result (addTestToAddresses store_bare (Some [Some "a@x.com"; None]))
  = Throw TypeError.
Proof. reflexivity. Qed.

(** C3: [modifyRecipient] replaces the first occurrence of the address in
    the recipient, which is not the bracketed one when the display name
    contains the address: for [john@x.com <john@x.com>], with no whitelist,
    no exempt group and no user, the suffix goes to the display name and the
    bracketed address stays as it is. *)
Theorem C3_suffix_lands_in_display_name :
  _extractEmailAddress (Some "john@x.com <john@x.com>") = mret "john@x.com"
  ∧ _shouldSkipModification "john@x.com" "" = false
  ∧ addTestToAddresses store_bare (Some [Some "john@x.com <john@x.com>"])
    = Run [GetProperty "mck.email.subProdEmail.ReceivingAddresses";
           GetProperty "mck.email.subProdEmail.ReceivingGroupIds";
           Query sys_user [("email", Some "john@x.com")]]
        (Return "john@x.com.test <john@x.com>").
Proof. by repeat split. Qed.

(** C8: a string without [@] and without angle brackets is its own address
    and goes through the same rules, without exception; but the replacement
    text of [replace] reads [$$] as one dollar sign, so that [pay$$roll],
    which no skip rule exempts, becomes [pay$roll.test] and not the string
    with the suffix appended. *)
Theorem C8_dollar_signs_rewritten :
  _extractEmailAddress (Some "pay$$roll") = mret "pay$$roll"
  ∧ _shouldSkipModification "pay$$roll" "" = false
  ∧ addTestToAddresses store_bare (Some [Some "pay$$roll"])
    = Run [GetProperty "mck.email.subProdEmail.ReceivingAddresses";
           GetProperty "mck.email.subProdEmail.ReceivingGroupIds";
           Query sys_user [("email", Some "pay$$roll")]]
        (Return "pay$roll.test").
Proof. by repeat split. Qed.

(** C10: a second pass over the output of a first pass changes it again:
    for [john@x.com <john@x.com>] the first pass puts the suffix in the
    display name, the bracketed address still has none, rule A does not
    apply in the second pass and a second suffix is added. *)
Theorem C10_second_pass_adds_suffix :
  result (addTestToAddresses store_bare (Some [Some "john@x.com <john@x.com>"]))
  = Return "john@x.com.test <john@x.com>"
  ∧ JS.split "," "john@x.com.test <john@x.com>"
    = ["john@x.com.test <john@x.com>"]
  ∧ result (addTestToAddresses store_bare
              (Some (Some <$> JS.split "," "john@x.com.test <john@x.com>")))
    = Return "john@x.com.test.test <john@x.com>".
Proof. by repeat split. Qed.

End modifyRecipient_facts.

(** ** Concrete instances *)

(** [initialize] builds [config_dev] in the configuration stores. *)
Example initialize_store_config :
  result (InstanceConfig.initialize store_config) = Return config_dev
  ∧ result (InstanceConfig.initialize store_empty_override) = Return config_dev.
Proof. by split. Qed.

(** C1 as stated fails: in [store_empty_override] the instance has an
    override record for [k], whose value is empty, and [getKey] returns the
    default [d], not the value of the override record. *)
Lemma C1_override_with_empty_value :
  result (InstanceConfig.getKey store_empty_override config_dev (Some "k"))
  ≠ Return (resolve store_empty_override
              (GlideRecord.getUniqueValue (InstanceConfig.instance config_dev))
              (Some "k")).
Proof. by vm_compute. Qed.

Example getKey_empty_override_values :
  result (InstanceConfig.getKey store_empty_override config_dev (Some "k"))
  = Return (Some "d")
  ∧ resolve store_empty_override (Some "i1") (Some "k") = None.
Proof. by split. Qed.

Lemma C1_getKey_resolution_witness :
  result (InstanceConfig.getKey store_config config_dev (Some "k"))
  = Return (Some "o")
  ∧ result (InstanceConfig.getKey store_config config_dev (Some "j"))
    = Return (Some "e").
Proof.
  split.
  - destruct (C1_getKey_resolution store_config config_dev (Some "k"))
      as (v & -> & Hoverride & _).
    f_equal.
    apply (Hoverride
             ({[ "instance" := "i1"; "property.key" := "k"; "value" := "o" ]}
                : row) "o"); [|reflexivity].
    exists [], []. split; [reflexivity|]. split; [by split|constructor].
  - destruct (C1_getKey_resolution store_config config_dev (Some "j"))
      as (v & -> & _ & Hdefault & _).
    rewrite (Hdefault ({[ "key" := "j"; "default_value" := "e" ]} : row));
      [reflexivity| |].
    + left. repeat constructor; by intros [_ [=]].
    + eexists [_], []. split; [reflexivity|]. split; [reflexivity|].
      repeat constructor. by intros [=].
Defined.

Lemma C6_getKey_literal_key_witness :
  InstanceConfig.getKey store_config config_dev None
  = Run [Query property_scope [("instance", Some "i1"); ("property.key", None)];
         Query property [("key", None)]]
      (Return None).
Proof.
  apply (C6_getKey_literal_key store_config config_dev None (or_introl eq_refl)).
  - repeat constructor; by intros [_ [=]].
  - repeat constructor; by intros [=].
Defined.

(** C2 as stated fails: rule B depends on the address and the whitelist
    string only; the address [ajohn@x.com] does not occur in the whitelist
    string [john@x.com], so rule B does not apply, and in the store that has
    this whitelist and nothing else the recipient is modified. *)
Lemma C2_longer_address_not_whitelisted :
  MCK_MailHelper._shouldSkipModification "ajohn@x.com" "john@x.com" = false
  ∧ result (MCK_MailHelper.addTestToAddresses (store_whitelist "john@x.com")
              (Some [Some "ajohn@x.com"]))
    ≠ Return "ajohn@x.com".
Proof. by split. Qed.

Lemma C2_address_within_whitelist_witness :
  MCK_MailHelper._processRecipient (store_whitelist "ajohn@x.com")
    (Some "John <John@X.com>") "ajohn@x.com" []
  = mret (Some "John <John@X.com>")
  ∧ result (MCK_MailHelper.addTestToAddresses (store_whitelist "ajohn@x.com")
              (Some [Some "john@x.com"]))
    = Return "john@x.com".
Proof.
  destruct (C2_address_within_whitelist (store_whitelist "ajohn@x.com"))
    as [HB Hstore].
  split.
  - apply (HB "John <John@X.com>" "John@X.com"); [reflexivity|].
    by exists "a", "".
  - apply Hstore. reflexivity.
Defined.


Lemma C5_already_processed_unchanged_witness :
  MCK_MailHelper.addTestToAddresses store_bare (Some [Some "a@x.com.test"])
  = Run [GetProperty "mck.email.subProdEmail.ReceivingAddresses";
         GetProperty "mck.email.subProdEmail.ReceivingGroupIds"]
      (Return "a@x.com.test").
Proof.
  apply (C5_already_processed_unchanged store_bare "a@x.com.test" "a@x.com.test").
  - reflexivity.
  - by exists "a@x.com", "".
Defined.

Lemma C9_empty_address_unchanged_witness :
  MCK_MailHelper.addTestToAddresses store_directory (Some [Some "Name <>"])
  = Run [GetProperty "mck.email.subProdEmail.ReceivingAddresses";
         GetProperty "mck.email.subProdEmail.ReceivingGroupIds"]
      (Return "Name <>").
Proof.
  apply (C9_empty_address_unchanged store_directory "Name <>"). reflexivity.
Defined.

(** ** InstanceConfig: construction, cost and soundness of [getKey] *)

Section InstanceConfig_further.
Import InstanceConfig.

Variable w : world.

Lemma select_name id :
  GlideRecord.select w instance_table [("name", id)]
  = filter (has_name id) (records w instance_table).
Proof.
  apply list_filter_iff. intros r.
  unfold GlideRecord.selected, has_name, GlideRecord.satisfies. split.
  - intros H. by inversion H.
  - intros H. by repeat constructor.
Qed.

Lemma initialize_run :
  let id := sys_properties w !! "instance_name" in
  initialize w
  = Run [GetProperty "instance_name"; Query instance_table [("name", id)]]
      (Return (Make id
                 (GlideRecord.Make instance_table [("name", id)]
                    (tail (filter (has_name id) (records w instance_table)))
                    (head (filter (has_name id) (records w instance_table)))))).
Proof.
  intros id. unfold initialize, GlideRecord.get, GlideRecord.query, gs.getProperty.
  cbn. fold instance_table id. rewrite select_name.
  by destruct (filter _ _).
Qed.

(** X1: [initialize] reads the instance name and queries the instance table
    once, without exception; afterwards [getName] is the configured name
    when an instance record has that name, and [null] when none has, in
    which case the object holds no instance identifier either. *)
Theorem initialize_getName :
  let id := sys_properties w !! "instance_name" in
  ∃ this,
    initialize w
    = Run [GetProperty "instance_name"; Query instance_table [("name", id)]]
        (Return this)
    ∧ instanceId this = id
    ∧ (∀ r, first_such (has_name id) (records w instance_table) r →
            getName this = id
            ∧ GlideRecord.getUniqueValue (instance this) = r !! "sys_id")
    ∧ (Forall (λ r, ¬ has_name id r) (records w instance_table) →
       getName this = None
       ∧ GlideRecord.getUniqueValue (instance this) = None).
Proof.
  intros id. rewrite initialize_run. fold id.
  eexists. split; [reflexivity|]. split; [reflexivity|]. split.
  - intros r Hr. unfold getName, GlideRecord.getUniqueValue, GlideRecord.getValue.
    cbn. rewrite (first_such_head _ _ _ Hr).
    destruct Hr as (_ & _ & _ & Hname & _). by split.
  - intros Hnone. unfold getName, GlideRecord.getUniqueValue, GlideRecord.getValue.
    cbn. by rewrite (none_such_filter _ _ Hnone).
Qed.

(** X2: With no instance record loaded, and every override record bound to an
    instance, [getKey] answers what [_getDefault] answers, for every key. *)
Theorem getKey_without_instance this key :
  result (initialize w) = Return this →
  Forall (λ r, ¬ has_name (sys_properties w !! "instance_name") r)
    (records w instance_table) →
  Forall (λ r, r !! "instance" ≠ None) (records w property_scope) →
  getKey w this key
  = Run [Query property_scope [("instance", None); ("property.key", key)];
         Query property [("key", key)]]
      (result (_getDefault w this key)).
Proof.
  intros Hthis Hnone Hbound.
  rewrite initialize_run in Hthis. cbn in Hthis.
  rewrite (none_such_filter _ _ Hnone) in Hthis. injection Hthis as <-.
  rewrite getKey_falls_back.
  - by rewrite _getDefault_run.
  - left. eapply Forall_impl; [exact Hbound|].
    intros r Hr [Hi _]. done.
Qed.


(** X4: A value returned by [getKey] is the value of an override record of the
    loaded instance for that key, or the default value of a default record
    for that key: never a value of another instance or of another key. *)
Theorem getKey_sound this key x :
  result (getKey w this key) = Return (Some x) →
  (∃ r, r ∈ records w property_scope
        ∧ is_override (GlideRecord.getUniqueValue (instance this)) key r
        ∧ r !! "value" = Some x)
  ∨ (∃ d, d ∈ records w property
          ∧ is_default key d ∧ d !! "default_value" = Some x).
Proof.
  destruct (override_cases w this key) as [(r & x' & Hr & Hx)|Hno].
  - rewrite (getKey_override w this key r x' Hr Hx). intros [= <-].
    left. exists r. destruct Hr as (b & a & Hrows & Ho & _).
    split; [|done]. rewrite Hrows. apply elem_of_app. right. by left.
  - rewrite (getKey_falls_back w this key Hno). cbn.
    destruct (head _) as [d|] eqn:Hd; [|done]. cbn. intros [= Hx].
    right. exists d. apply head_Some_elem_of in Hd.
    apply list_elem_of_filter in Hd as [Hk Hin]. done.
Qed.

End InstanceConfig_further.

(** ** JavaScript strings: characters, pieces and replacement text *)

Lemma lacks_app c a b : lacks c (a +:+ b) = lacks c a && lacks c b.
Proof. induction a as [|d a IH]; simpl; [done|]. by rewrite IH, andb_assoc. Qed.

Lemma lacks_occurs c s : lacks c s = true ↔ ¬ occurs_in (String c "") s.
Proof.
  induction s as [|d s IH]; simpl.
  - split; [|done]. intros _ (b & r & H). by destruct b.
  - rewrite andb_true_iff, negb_true_iff, IH. split.
    + intros [Hd Hs] (b & r & H). destruct b as [|d' b]; simpl in H.
      * injection H as -> _. by rewrite Ascii.eqb_refl in Hd.
      * injection H as -> H. apply Hs. by exists b, r.
    + intros Hno. split.
      * destruct (Ascii.eqb_spec d c) as [->|]; [|done].
        destruct Hno. by exists "", s.
      * intros (b & r & ->). apply Hno. by exists (String d b), r.
Qed.

Lemma length_append a b :
  String.length (a +:+ b) = (String.length a + String.length b)%nat.
Proof. induction a as [|c a IH]; simpl; [done|]. by rewrite IH. Qed.

Lemma append_cancel_r a b c : a +:+ c = b +:+ c → a = b.
Proof.
  revert b. induction a as [|x a IH]; intros [|y b]; simpl; [done| | |].
  - intros H. apply (f_equal String.length) in H. simpl in H.
    rewrite length_append in H. lia.
  - intros H. apply (f_equal String.length) in H. simpl in H.
    rewrite length_append in H. lia.
  - intros [= -> H]. f_equal. by apply IH.
Qed.

Lemma occurs_in_empty_string pat : occurs_in pat "" → pat = "".
Proof. intros (b & r & H). destruct b; [|done]. by destruct pat. Qed.

Lemma toLowerCase_empty s : JS.toLowerCase s = "" → s = "".
Proof. by destruct s. Qed.

(** *** [split] and [join] *)

Lemma split_not_nil sep s : JS.split sep s ≠ [].
Proof.
  destruct s as [|c s]; simpl; [done|].
  destruct (Ascii.eqb c sep); [done|]. by destruct (JS.split sep s).
Qed.

Lemma join_cons sep x y l :
  JS.join sep (Some x :: y :: l) = x +:+ sep +:+ JS.join sep (y :: l).
Proof. reflexivity. Qed.

Lemma join_push c sep x l :
  JS.join sep (Some (String c x) :: l) = String c (JS.join sep (Some x :: l)).
Proof. by destruct l. Qed.

(** Joining the pieces of a string gives the string back. *)
Lemma join_split s : JS.join "," (Some <$> JS.split "," s) = s.
Proof.
  induction s as [|c s IH]; simpl; [done|].
  destruct (Ascii.eqb_spec c ",") as [->|Hc].
  - pose proof (split_not_nil "," s) as Hne.
    destruct (JS.split "," s) as [|p ps]; [done|].
    change (Some <$> "" :: p :: ps) with (Some "" :: Some p :: (Some <$> ps)).
    rewrite join_cons. simpl. f_equal. exact IH.
  - pose proof (split_not_nil "," s) as Hne.
    destruct (JS.split "," s) as [|p ps]; [done|].
    change (Some <$> String c p :: ps)
      with (Some (String c p) :: (Some <$> ps)).
    rewrite join_push. f_equal. exact IH.
Qed.

(** No piece contains the separator. *)
Lemma split_pieces s : Forall (λ p, lacks "," p = true) (JS.split "," s).
Proof.
  induction s as [|c s IH]; simpl; [by repeat constructor|].
  destruct (Ascii.eqb c ",") eqn:Hc; [by constructor|].
  destruct (JS.split "," s) as [|p ps]; [by repeat constructor; simpl; rewrite Hc|].
  inversion IH; subst. constructor; [|done]. simpl. by rewrite Hc.
Qed.

Lemma split_lacks s : lacks "," s = true → JS.split "," s = [s].
Proof.
  induction s as [|c s IH]; simpl; [done|].
  intros [Hc Hs]%andb_true_iff. apply negb_true_iff in Hc. rewrite Hc.
  by rewrite IH.
Qed.

Lemma split_piece_comma s t :
  lacks "," s = true →
  JS.split "," (s +:+ String "," t) = s :: JS.split "," t.
Proof.
  induction s as [|c s IH]; simpl; [done|].
  intros [Hc Hs]%andb_true_iff. apply negb_true_iff in Hc. rewrite Hc.
  by rewrite IH.
Qed.

(** Splitting the join of comma-free strings gives the strings back. *)
Lemma split_join l :
  l ≠ [] → Forall (λ p, lacks "," p = true) l →
  JS.split "," (JS.join "," (Some <$> l)) = l.
Proof.
  intros Hne Hl. induction Hl as [|x l Hx Hl IH]; [done|].
  destruct l as [|y l].
  - simpl. by apply split_lacks.
  - change (Some <$> x :: y :: l) with (Some x :: Some y :: (Some <$> l)).
    rewrite join_cons. simpl. rewrite split_piece_comma by done.
    f_equal. by apply IH.
Qed.

(** *** The replacement text *)

Lemma GetSubstitution_two matched before rest d e r :
  JS.GetSubstitution matched before rest (String d (String e r))
  = if Ascii.eqb d "$" then
      if Ascii.eqb e "$" then
        String "$" (JS.GetSubstitution matched before rest r)
      else if Ascii.eqb e "&" then
        matched +:+ JS.GetSubstitution matched before rest r
      else if Ascii.eqb e "`" then
        before +:+ JS.GetSubstitution matched before rest r
      else if Ascii.eqb e "'" then
        rest +:+ JS.GetSubstitution matched before rest r
      else String d (JS.GetSubstitution matched before rest (String e r))
    else String d (JS.GetSubstitution matched before rest (String e r)).
Proof. reflexivity. Qed.

(** The replacement text is made of characters of the replacement, of the
    match and of its context. *)
Lemma GetSubstitution_lacks c matched before rest replacement :
  lacks c matched = true → lacks c before = true → lacks c rest = true →
  lacks c replacement = true →
  lacks c (JS.GetSubstitution matched before rest replacement) = true.
Proof.
  intros Hm Hb Hr.
  cut ((lacks c replacement = true →
        lacks c (JS.GetSubstitution matched before rest replacement) = true)
       ∧ ∀ d, lacks c (String d replacement) = true →
              lacks c (JS.GetSubstitution matched before rest
                         (String d replacement)) = true); [tauto|].
  induction replacement as [|e r [IH1 IH2]].
  - split; [done|]. intros d Hd. simpl in *.
    by destruct (Ascii.eqb d "$"); simpl.
  - split; [apply IH2|]. intros d Hd.
    change (lacks c (String d (String e r)))
      with (negb (Ascii.eqb d c) && lacks c (String e r)) in Hd.
    apply andb_true_iff in Hd as [Hd Her].
    assert (Hr' : lacks c r = true).
    { simpl in Her. by apply andb_true_iff in Her as [_ ?]. }
    rewrite GetSubstitution_two.
    destruct (Ascii.eqb d "$").
    + destruct (Ascii.eqb_spec e "$") as [->|_].
      { change (lacks c (String "$" (JS.GetSubstitution matched before rest r)))
          with (negb (Ascii.eqb "$" c)
                && lacks c (JS.GetSubstitution matched before rest r)).
        apply andb_true_iff. split; [|by apply IH1].
        change (lacks c (String "$" r))
          with (negb (Ascii.eqb "$" c) && lacks c r) in Her.
        by apply andb_true_iff in Her as [? _]. }
      destruct (Ascii.eqb e "&"); [rewrite lacks_app, Hm; by apply IH1|].
      destruct (Ascii.eqb e "`"); [rewrite lacks_app, Hb; by apply IH1|].
      destruct (Ascii.eqb e "'"); [rewrite lacks_app, Hr; by apply IH1|].
      change (negb (Ascii.eqb d c)
              && lacks c (JS.GetSubstitution matched before rest (String e r))
              = true).
      rewrite Hd. by apply IH2.
    + change (negb (Ascii.eqb d c)
              && lacks c (JS.GetSubstitution matched before rest (String e r))
              = true).
      rewrite Hd. by apply IH2.
Qed.

(** The replacement text for [x] followed by the suffix ends with the
    suffix: no replacement pattern reaches into it. *)
Lemma GetSubstitution_suffix matched before rest x :
  ∃ y, JS.GetSubstitution matched before rest (x +:+ ".test") = y +:+ ".test".
Proof.
  cut ((∃ y, JS.GetSubstitution matched before rest (x +:+ ".test")
             = y +:+ ".test")
       ∧ ∀ d, ∃ y, JS.GetSubstitution matched before rest
                     (String d x +:+ ".test") = y +:+ ".test"); [tauto|].
  induction x as [|e x [IH1 IH2]].
  - split; [by exists ""|]. intros d. exists (String d "").
    change (String d "" +:+ ".test") with (String d (String "." "test")).
    rewrite GetSubstitution_two. by destruct (Ascii.eqb d "$").
  - split; [apply IH2|]. intros d.
    change (String d (String e x) +:+ ".test")
      with (String d (String e (x +:+ ".test"))).
    rewrite GetSubstitution_two.
    destruct IH1 as [y1 Hy1]. destruct (IH2 e) as [y2 Hy2].
    change (String e x +:+ ".test") with (String e (x +:+ ".test")) in Hy2.
    rewrite Hy1, Hy2.
    destruct (Ascii.eqb d "$"); [|by exists (String d y2)].
    destruct (Ascii.eqb e "$"); [by exists (String "$" y1)|].
    destruct (Ascii.eqb e "&");
      [exists (matched +:+ y1); by rewrite append_assoc|].
    destruct (Ascii.eqb e "`");
      [exists (before +:+ y1); by rewrite append_assoc|].
    destruct (Ascii.eqb e "'");
      [exists (rest +:+ y1); by rewrite append_assoc|].
    by exists (String d y2).
Qed.

Lemma search_None pat s : ¬ occurs_in pat s → JS.search pat s = None.
Proof.
  intros Hno. destruct (JS.search pat s) as [[b r]|] eqn:Hs; [|done].
  destruct Hno. exists b, r. by apply search_Some.
Qed.

(** [replace] leaves a string in which the pattern does not occur as it
    is. *)
Lemma replace_absent s pat replacement :
  ¬ occurs_in pat s → JS.replace s pat replacement = s.
Proof. intros Hno. unfold JS.replace. by rewrite search_None. Qed.

(** [replace] brings no new character. *)
Lemma replace_lacks c s pat replacement :
  lacks c s = true → lacks c replacement = true →
  lacks c (JS.replace s pat replacement) = true.
Proof.
  intros Hs Hr. unfold JS.replace.
  destruct (JS.search pat s) as [[b r]|] eqn:Hsearch; [|done].
  apply search_Some in Hsearch. subst s.
  rewrite !lacks_app in Hs. apply andb_true_iff in Hs as [Hb Hs].
  apply andb_true_iff in Hs as [Hp Hrest].
  rewrite !lacks_app, Hb, Hrest, andb_true_r. simpl.
  by apply GetSubstitution_lacks.
Qed.

(** Replacing an occurrence of [pat] by [x] with the suffix: the text
    around the first occurrence stays, and what replaces it ends with the
    suffix. *)
Lemma replace_suffix s pat x :
  occurs_in pat s →
  ∃ b y r, s = b +:+ pat +:+ r
           ∧ JS.replace s pat (x +:+ ".test") = b +:+ (y +:+ ".test") +:+ r.
Proof.
  intros [[b r] Hs]%search_occurs. unfold JS.replace. rewrite Hs.
  destruct (GetSubstitution_suffix pat b r x) as [y ->].
  exists b, y, r. split; [|done]. by apply search_Some.
Qed.

(** *** The expression of the mail helper *)

Lemma group_then_close_Some s g :
  JS.group_then_close s = Some g →
  ∃ b, s = g +:+ ">" +:+ b ∧ lacks ">" g = true.
Proof.
  revert g. induction s as [|c s IH]; intros g; simpl; [done|].
  destruct (Ascii.eqb_spec c ">") as [->|Hc].
  - intros [= <-]. by exists s.
  - destruct (JS.group_then_close s) as [g'|]; [|done]. intros [= <-].
    destruct (IH g' eq_refl) as (b & -> & Hg). exists b. split; [done|].
    simpl. rewrite Hg, andb_true_r. apply negb_true_iff.
    by apply Ascii.eqb_neq.
Qed.

Lemma group_then_close_None s :
  JS.group_then_close s = None → lacks ">" s = true.
Proof.
  induction s as [|c s IH]; simpl; [done|].
  destruct (Ascii.eqb c ">"); [done|].
  destruct (JS.group_then_close s); [done|]. intros _. by apply IH.
Qed.

Lemma group_then_close_closed g b :
  is_Some (JS.group_then_close (g +:+ ">" +:+ b)).
Proof.
  induction g as [|c g IH]; simpl in *; [done|].
  destruct (Ascii.eqb c ">"); [done|]. by destruct IH as [? ->].
Qed.

(** A match: the group is the text between the first [<] and the first [>]
    after it. *)
Lemma match_emailRegex_Some s g :
  JS.match_emailRegex s = Some g →
  ∃ a b, s = a +:+ "<" +:+ g +:+ ">" +:+ b
         ∧ lacks "<" a = true ∧ lacks ">" g = true.
Proof.
  induction s as [|c s IH]; simpl; [done|].
  destruct (Ascii.eqb_spec c "<") as [->|Hc].
  - destruct (JS.group_then_close s) as [g'|] eqn:Hg.
    + intros [= <-]. destruct (group_then_close_Some s g' Hg) as (b & -> & Hl).
      by exists "", b.
    + intros Hm. destruct (IH Hm) as (a & b & -> & _ & _).
      apply group_then_close_None in Hg.
      rewrite !lacks_app in Hg. simpl in Hg.
      by rewrite !andb_false_r in Hg.
  - intros Hm. destruct (IH Hm) as (a & b & -> & Ha & Hg).
    exists (String c a), b. split; [done|]. split; [|done].
    simpl. rewrite Ha, andb_true_r. apply negb_true_iff.
    by apply Ascii.eqb_neq.
Qed.

(** No match: there is no [<] with a [>] after it. *)
Lemma match_emailRegex_None s a g b :
  JS.match_emailRegex s = None → s ≠ a +:+ "<" +:+ g +:+ ">" +:+ b.
Proof.
  intros Hm ->. revert Hm.
  pose proof (group_then_close_closed g b) as [g' Hg].
  induction a as [|c a IH]; simpl in *.
  - by rewrite Hg.
  - destruct (Ascii.eqb c "<"); [|done].
    destruct (JS.group_then_close (a +:+ _)); [intros [=]|exact IH].
Qed.

(** ** MCK_MailHelper: extraction, configuration and the directory *)

Section MailHelper_further.
Import MCK_MailHelper.

Variable w : world.

Lemma extracted_occurs r e :
  _extractEmailAddress (Some r) = mret e → occurs_in e r.
Proof.
  unfold _extractEmailAddress. intros [= <-].
  destruct (JS.match_emailRegex r) as [g|] eqn:Hm.
  - destruct (match_emailRegex_Some r g Hm) as (a & b & -> & _).
    exists (a +:+ "<"), (">" +:+ b). by rewrite append_assoc.
  - exists "", "". simpl. by rewrite append_empty_r.
Qed.

Lemma extracted_lacks c r e :
  _extractEmailAddress (Some r) = mret e →
  lacks c r = true → lacks c e = true.
Proof.
  intros (b & t & ->)%extracted_occurs. rewrite !lacks_app.
  intros [_ [H _]%andb_true_iff]%andb_true_iff. done.
Qed.

Lemma extracted_bare r :
  lacks "<" r = true → _extractEmailAddress (Some r) = mret r.
Proof. intros H. by apply _extractEmailAddress_malformed, lacks_occurs. Qed.

(** X5: The extracted address is the text between the first [<] of the
    recipient and the first [>] after it; it is the whole recipient when no
    [<] of the recipient has a [>] after it. *)
Theorem extracted_address_between r e :
  _extractEmailAddress (Some r) = mret e →
  (∃ a b, r = a +:+ "<" +:+ e +:+ ">" +:+ b
          ∧ lacks "<" a = true ∧ lacks ">" e = true)
  ∨ (e = r ∧ ∀ a g b, r ≠ a +:+ "<" +:+ g +:+ ">" +:+ b).
Proof.
  unfold _extractEmailAddress. intros [= <-].
  destruct (JS.match_emailRegex r) as [g|] eqn:Hm.
  - left. by apply match_emailRegex_Some.
  - right. split; [done|]. intros a g b. by apply match_emailRegex_None.
Qed.

Lemma _getReceivingAddresses_run :
  _getReceivingAddresses w
  = Run [GetProperty ReceivingAddresses] (Return (whitelist_of w)).
Proof. reflexivity. Qed.

Lemma _getReceivingGroupIds_run :
  _getReceivingGroupIds w
  = Run [GetProperty ReceivingGroupIds] (Return (groupIds_of w)).
Proof. reflexivity. Qed.

(** X11: With no whitelist configured, rules A and B exempt only the addresses
    that contain the suffix and the empty address. *)
Theorem no_whitelist_exempts_nobody :
  sys_properties w !! ReceivingAddresses = None
  ∨ sys_properties w !! ReceivingAddresses = Some "" →
  _getReceivingAddresses w = Run [GetProperty ReceivingAddresses] (Return "")
  ∧ ∀ e, _shouldSkipModification e "" = true
         ↔ e = "" ∨ occurs_in ".test" e.
Proof.
  intros Hw. split.
  - rewrite _getReceivingAddresses_run. unfold whitelist_of.
    by destruct Hw as [-> | ->].
  - intros e. unfold _shouldSkipModification.
    rewrite orb_true_iff, !includes_occurs. split.
    + intros [H|H]; [by right|left].
      by apply toLowerCase_empty, occurs_in_empty_string.
    + intros [->|H]; [right|by left]. apply occurs_in_empty.
Qed.


(** X9: The exempt groups are the pieces of the property between commas, as
    they are: joined with commas they give the property back, and no piece
    contains a comma. *)
Theorem groupIds_are_the_pieces g :
  sys_properties w !! ReceivingGroupIds = Some g → g ≠ "" →
  ∃ gids,
    _getReceivingGroupIds w = Run [GetProperty ReceivingGroupIds] (Return gids)
    ∧ JS.join "," (Some <$> gids) = g
    ∧ Forall (λ p, lacks "," p = true) gids
    ∧ gids ≠ [].
Proof.
  intros Hg Hne. exists (JS.split "," g).
  rewrite _getReceivingGroupIds_run. unfold groupIds_of. rewrite Hg.
  destruct g as [|c g']; [done|]. cbn [JS.truthy_opt JS.truthy default].
  split; [done|]. split; [apply join_split|].
  split; [apply split_pieces|apply split_not_nil].
Qed.

Lemma isMemberOf_some_directory user gids :
  Forall directory_call (trace (isMemberOf_some user gids)).
Proof.
  induction gids as [|g gids IH]; simpl; [constructor|].
  unfold gs.isMemberOf. cbn. destruct (bool_decide _); cbn.
  - by repeat constructor.
  - by constructor.
Qed.

Lemma after_user_record_directory u gids :
  ∃ t b, after_user_record w u gids = Run t (Return b)
         ∧ Forall directory_call t.
Proof.
  unfold after_user_record, gs.getUserByID. cbn.
  destruct (u !! "sys_id" ≫= _) as [user|].
  - destruct (isMemberOf_some_shape user gids) as (b & Hb & _).
    eexists _, b. rewrite <- Hb. split; [reflexivity|].
    constructor; [done|]. apply isMemberOf_some_directory.
  - eexists _, false. split; [reflexivity|]. by repeat constructor.
Qed.

(** The directory lookup: one query, then calls to the directory only. *)
Lemma _isUserInAuthorizedGroup_directory e gids :
  ∃ t b, _isUserInAuthorizedGroup w e gids
         = Run (Query sys_user [("email", Some e)] :: t) (Return b)
         ∧ Forall directory_call t.
Proof.
  rewrite _isUserInAuthorizedGroup_run.
  destruct (head _) as [u|].
  - destruct (after_user_record_directory u gids) as (t & b & -> & Ht).
    by exists t, b.
  - by exists [], false.
Qed.

(** X8: With no exempt group configured, rule C exempts nobody: the user
    record is still looked up, but no membership is tested. *)
Theorem no_exempt_groups_exempts_nobody :
  sys_properties w !! ReceivingGroupIds = None
  ∨ sys_properties w !! ReceivingGroupIds = Some "" →
  _getReceivingGroupIds w = Run [GetProperty ReceivingGroupIds] (Return [])
  ∧ ∀ e, ∃ t, _isUserInAuthorizedGroup w e []
              = Run (Query sys_user [("email", Some e)] :: t) (Return false)
              ∧ ∀ user g, IsMemberOf user g ∉ t.
Proof.
  intros Hw. split.
  - rewrite _getReceivingGroupIds_run. unfold groupIds_of.
    by destruct Hw as [-> | ->].
  - intros e. rewrite _isUserInAuthorizedGroup_run.
    destruct (head _) as [u|].
    + unfold after_user_record, gs.getUserByID. cbn.
      destruct (u !! "sys_id" ≫= _); cbn.
      * eexists. split; [reflexivity|]. intros usr grp Hin.
        apply list_elem_of_singleton in Hin. discriminate.
      * eexists. split; [reflexivity|]. intros usr grp Hin.
        apply list_elem_of_singleton in Hin. discriminate.
    + exists []. split; [done|]. intros usr grp Hin. by inversion Hin.
Qed.

(** X16: A user who is a member of none of the exempt groups: every group is
    tested, once and in the configured order, on the first user record with
    the address, and rule C does not apply, whatever the later user records
    with the same address. *)
Theorem member_of_no_exempt_group e u sid member gids :
  first_such (has_email e) (records w sys_user) u →
  u !! "sys_id" = Some sid →
  user_directory w !! sid = Some member →
  Forall (λ g, g ∉ member) gids →
  _isUserInAuthorizedGroup w e gids
  = Run (Query sys_user [("email", Some e)]
           :: GetUserByID (Some sid) :: (IsMemberOf sid <$> gids))
      (Return false).
Proof.
  intros Hu Hsid Hdir Hnone. rewrite _isUserInAuthorizedGroup_run.
  rewrite (first_such_head _ _ _ Hu).
  unfold after_user_record, gs.getUserByID. cbn.
  rewrite Hsid. cbn. rewrite Hdir. cbn.
  by rewrite (isMemberOf_some_none (gs.User sid member) gids).
Qed.

End MailHelper_further.

(** ** MCK_MailHelper: what processing does to a list of recipients *)

Section processing_further.
Import MCK_MailHelper.

Variable w : world.

(** X12: [modifyRecipient] with an address that is not empty and does not occur
    in the recipient returns the recipient as it is: no suffix is added. *)
Theorem modifyRecipient_address_not_found original e :
  e ≠ "" → ¬ occurs_in e original →
  modifyRecipient (Some original) e = mret original.
Proof.
  intros Hne Hno. unfold modifyRecipient.
  destruct e as [|c e]; [done|]. cbn [JS.truthy].
  by rewrite replace_absent.
Qed.

Lemma not_skipped_no_suffix e ra :
  _shouldSkipModification e ra = false → ¬ occurs_in ".test" e.
Proof.
  unfold _shouldSkipModification. intros [HA _]%orb_false_iff Hocc.
  apply includes_occurs in Hocc. unfold _emailModifier in HA. congruence.
Qed.

(** The two ways of a recipient that is a string. *)
Lemma _processRecipient_cases r e ra gids :
  _extractEmailAddress (Some r) = mret e →
  (_shouldSkipModification e ra = true
   ∧ _processRecipient w (Some r) ra gids = Run [] (Return (Some r)))
  ∨ (_shouldSkipModification e ra = false
     ∧ ∃ t b,
         _isUserInAuthorizedGroup w e gids
         = Run (Query sys_user [("email", Some e)] :: t) (Return b)
         ∧ Forall directory_call t
         ∧ _processRecipient w (Some r) ra gids
           = Run (Query sys_user [("email", Some e)] :: t)
               (Return (Some (if b then r
                              else JS.replace r e (e +:+ ".test"))))).
Proof.
  intros He. destruct (_shouldSkipModification e ra) eqn:Hskip.
  - left. split; [done|]. by apply (_processRecipient_skip w r e).
  - right. split; [done|].
    destruct (_isUserInAuthorizedGroup_directory w e gids)
      as (t & b & Hrun & Ht).
    exists t, b. split; [done|]. split; [done|].
    rewrite (_processRecipient_no_skip w r e ra gids He Hskip).
    rewrite (modifyRecipient_no_skip r e ra Hskip), Hrun.
    destruct b; cbn; by rewrite app_nil_r.
Qed.

(** A modified recipient: the text around the first occurrence of the
    address stays, and the address is replaced by a text that ends with the
    suffix. *)
Lemma modified_shape r e :
  _extractEmailAddress (Some r) = mret e →
  ∃ b y t, r = b +:+ e +:+ t
           ∧ JS.replace r e (e +:+ ".test") = b +:+ (y +:+ ".test") +:+ t.
Proof. intros He. by apply replace_suffix, extracted_occurs. Qed.

(** X13: A recipient comes back as it is exactly when rule A or B applies or
    rule C finds an exempt member; otherwise it comes back changed, and
    with the suffix somewhere in it. *)
Theorem unchanged_iff_exempt r e ra gids v :
  _extractEmailAddress (Some r) = mret e →
  processed w ra gids r v →
  (v = r ↔ _shouldSkipModification e ra = true
           ∨ result (_isUserInAuthorizedGroup w e gids) = Return true)
  ∧ (v ≠ r → occurs_in ".test" v).
Proof.
  intros He Hv. unfold processed in Hv.
  destruct (_processRecipient_cases r e ra gids He)
    as [[Hskip Hrun]|(Hskip & t & b & Hlook & _ & Hrun)];
    rewrite Hrun in Hv; injection Hv as <-.
  - split; [|done]. split; [by left|done].
  - rewrite Hlook. cbn. destruct b.
    + split; [|done]. split; [by right|done].
    + destruct (modified_shape r e He) as (b & y & t' & Hr & ->).
      assert (Hne : b +:+ (y +:+ ".test") +:+ t' ≠ r).
      { intros Heq. rewrite Hr in Heq. apply String.app_inj in Heq.
        apply append_cancel_r in Heq.
        apply (not_skipped_no_suffix e ra Hskip). exists y, "".
        by rewrite <- Heq. }
      split.
      * split; [done|]. intros [H|H]; congruence.
      * intros _. exists (b +:+ y), t'. by rewrite !append_assoc.
Qed.

(** Processing brings no character that is neither in the recipient nor in
    the suffix. *)
Lemma processed_lacks c r ra gids v :
  lacks c ".test" = true → lacks c r = true →
  processed w ra gids r v → lacks c v = true.
Proof.
  intros Hc Hr Hv. unfold processed in Hv.
  destruct (_extractEmailAddress_string r) as (e & He).
  destruct (_processRecipient_cases r e ra gids He)
    as [[_ Hrun]|(_ & t & b & _ & _ & Hrun)];
    rewrite Hrun in Hv; injection Hv as <-; [done|].
  destruct b; [done|]. apply replace_lacks; [done|].
  rewrite lacks_app, Hc, andb_true_r. by apply (extracted_lacks c r e).
Qed.

(** A bare recipient that has been processed is left as it is by a second
    processing. *)
Lemma processed_bare_fixed r ra gids v :
  lacks "<" r = true → processed w ra gids r v → processed w ra gids v v.
Proof.
  intros Hr Hv.
  pose proof (processed_lacks "<" r ra gids v eq_refl Hr Hv) as Hlv.
  unfold processed in *.
  pose proof (extracted_bare r Hr) as He.
  destruct (_processRecipient_cases r r ra gids He)
    as [[_ Hrun]|(_ & t & b & _ & _ & Hrun)].
  - rewrite Hrun in Hv. injection Hv as <-. by rewrite Hrun.
  - destruct b.
    + rewrite Hrun in Hv. injection Hv as <-. by rewrite Hrun.
    + rewrite Hrun in Hv. injection Hv as Hv.
      destruct (modified_shape r r He) as (b & y & t' & _ & Hm).
      rewrite Hm in Hv.
      rewrite (_processRecipient_skip w v v); [done|by apply extracted_bare|].
      unfold _shouldSkipModification. apply orb_true_iff. left.
      apply includes_occurs. exists (b +:+ y), t'. subst v.
      by rewrite !append_assoc.
Qed.

Lemma queries_app t1 t2 : queries (t1 ++ t2) = (queries t1 + queries t2)%nat.
Proof.
  induction t1 as [|ev t1 IH]; simpl; [done|]. destruct ev; simpl; lia.
Qed.

Lemma reads_app t1 t2 : reads (t1 ++ t2) = (reads t1 + reads t2)%nat.
Proof.
  induction t1 as [|ev t1 IH]; simpl; [done|]. destruct ev; simpl; lia.
Qed.

Lemma directory_only_counts t :
  Forall directory_call t → queries t = 0%nat ∧ reads t = 0%nat.
Proof.
  induction 1 as [|ev t Hev _ [IH1 IH2]]; [done|].
  destruct ev; simpl in *; done.
Qed.

Lemma _processRecipient_counts r ra gids :
  ∃ t v, _processRecipient w (Some r) ra gids = Run t (Return (Some v))
         ∧ reads t = 0%nat ∧ (queries t ≤ 1)%nat.
Proof.
  destruct (_extractEmailAddress_string r) as (e & He).
  destruct (_processRecipient_cases r e ra gids He)
    as [[_ Hrun]|(_ & t & b & _ & Ht & Hrun)]; rewrite Hrun.
  - eexists _, _. split; [done|]. simpl. lia.
  - eexists _, _. split; [done|].
    destruct (directory_only_counts t Ht) as [Hq Hr]. simpl. lia.
Qed.

(** The loop over a list of strings: the results are pushed in order, no
    property is read, and each recipient costs at most one query. *)
Lemma processRecipients_run rs ra gids acc :
  ∃ t vs, processRecipients w (Some <$> rs) ra gids acc
          = Run t (Return (acc ++ (Some <$> vs)))
          ∧ Forall2 (processed w ra gids) rs vs
          ∧ reads t = 0%nat ∧ (queries t ≤ length rs)%nat.
Proof.
  revert acc. induction rs as [|r rs IH]; intros acc.
  - exists [], []. cbn. rewrite app_nil_r. by repeat split.
  - cbn -[_processRecipient].
    destruct (_processRecipient_counts r ra gids) as (t & v & Hrun & Hr & Hq).
    destruct (IH (acc ++ [Some v])) as (t' & vs & Hrest & Hvs & Hr' & Hq').
    exists (t ++ t'), (v :: vs). rewrite Hrun. cbn. cbn in Hrest.
    rewrite Hrest. cbn. rewrite <- app_assoc. split; [done|].
    split; [constructor; [by unfold processed; rewrite Hrun|done]|].
    rewrite reads_app, queries_app. simpl. lia.
Qed.

Lemma addTestToAddresses_result rs :
  rs ≠ [] →
  ∃ vs, result (addTestToAddresses w (Some (Some <$> rs)))
        = Return (JS.join "," (Some <$> vs))
        ∧ Forall2 (processed w (whitelist_of w) (groupIds_of w)) rs vs.
Proof.
  intros Hne. destruct rs as [|r rs]; [done|].
  destruct (processRecipients_run (r :: rs) (whitelist_of w) (groupIds_of w) [])
    as (t & vs & Hrun & Hvs & _).
  exists vs. split; [|done].
  unfold addTestToAddresses.
  change (Some <$> r :: rs) with (Some r :: (Some <$> rs)) in *.
  rewrite _getReceivingAddresses_run, _getReceivingGroupIds_run.
  rewrite !bind_Return. cbn [trace result]. rewrite Hrun. done.
Qed.

(** X6: For a list of strings that is not empty: the two properties are read
    once, first, whatever the number of recipients; the result is the
    comma-join of the processed recipients, in the order of the list; and
    the store is queried at most once per recipient. *)
Theorem addTestToAddresses_in_order rs :
  rs ≠ [] →
  ∃ t vs,
    addTestToAddresses w (Some (Some <$> rs))
    = Run (GetProperty ReceivingAddresses :: GetProperty ReceivingGroupIds :: t)
        (Return (JS.join "," (Some <$> vs)))
    ∧ Forall2 (processed w (whitelist_of w) (groupIds_of w)) rs vs
    ∧ reads t = 0%nat ∧ (queries t ≤ length rs)%nat.
Proof.
  intros Hne. destruct rs as [|r rs]; [done|].
  destruct (processRecipients_run (r :: rs) (whitelist_of w) (groupIds_of w) [])
    as (t & vs & Hrun & Hvs & Hr & Hq).
  exists t, vs. split; [|done].
  unfold addTestToAddresses.
  change (Some <$> r :: rs) with (Some r :: (Some <$> rs)) in *.
  rewrite _getReceivingAddresses_run, _getReceivingGroupIds_run.
  rewrite !bind_Return. cbn [trace result]. rewrite Hrun. cbn.
  by rewrite app_nil_r.
Qed.

Lemma processRecipients_null pre ra gids :
  ∃ t, ∀ rest acc,
    processRecipients w ((Some <$> pre) ++ None :: rest) ra gids acc
    = Run t (Throw TypeError).
Proof.
  induction pre as [|r pre [t IH]].
  - exists []. intros rest acc. reflexivity.
  - destruct (_processRecipient_string w r ra gids) as (t1 & v & Hrun).
    exists (t1 ++ t). intros rest acc. cbn -[_processRecipient].
    rewrite Hrun. cbn. pose proof (IH rest (acc ++ [Some v])) as Hrest.
    cbn in Hrest. by rewrite Hrest.
Qed.

(** X7: A [null] recipient makes [addTestToAddresses] throw a TypeError; the
    recipients after it are not looked at: what is read from the platform
    before the exception does not depend on them. *)
Theorem addTestToAddresses_null_stops pre :
  ∃ t, ∀ rest,
    addTestToAddresses w (Some ((Some <$> pre) ++ None :: rest))
    = Run t (Throw TypeError).
Proof.
  destruct (processRecipients_null pre (whitelist_of w) (groupIds_of w))
    as [t Ht].
  exists (GetProperty ReceivingAddresses :: GetProperty ReceivingGroupIds :: t).
  intros rest. unfold addTestToAddresses.
  rewrite _getReceivingAddresses_run, _getReceivingGroupIds_run.
  destruct ((Some <$> pre) ++ None :: rest) as [|x l] eqn:Hl.
  - by destruct pre.
  - rewrite <- Hl. rewrite !bind_Return. cbn [trace result].
    by rewrite Ht.
Qed.

(** X14: When no recipient contains a comma, splitting the result on commas
    gives the processed recipients back, one piece per recipient. *)
Theorem output_splits_into_recipients rs out :
  rs ≠ [] → Forall (λ r, lacks "," r = true) rs →
  result (addTestToAddresses w (Some (Some <$> rs))) = Return out →
  Forall2 (processed w (whitelist_of w) (groupIds_of w)) rs (JS.split "," out).
Proof.
  intros Hne Hrs Hout.
  destruct (addTestToAddresses_result rs Hne) as (vs & Hres & Hvs).
  rewrite Hres in Hout. injection Hout as <-.
  rewrite split_join; [done| |].
  - intros ->. apply Forall2_nil_inv_r in Hvs. done.
  - clear Hres Hne. induction Hvs as [|r v rs vs Hv _ IH]; [done|].
    inversion Hrs; subst. constructor; [|by apply IH].
    by apply (processed_lacks "," r (whitelist_of w) (groupIds_of w) v).
Qed.

Lemma processed_fixed_list ra gids vs vs' :
  Forall (λ v, processed w ra gids v v) vs →
  Forall2 (processed w ra gids) vs vs' → vs' = vs.
Proof.
  intros Hfixed Hvs. induction Hvs as [|v v' vs vs' Hv _ IH]; [done|].
  inversion Hfixed as [|? ? Hvv Hfixed']; subst.
  unfold processed in *. rewrite Hvv in Hv. injection Hv as <-.
  f_equal. by apply IH.
Qed.

(** X15: For bare recipients (no [<]) without commas a second pass changes
    nothing: applied to the pieces of its own result,
    [addTestToAddresses] returns that result. *)
Theorem second_pass_on_bare_recipients rs out :
  Forall (λ r, lacks "<" r = true ∧ lacks "," r = true) rs →
  result (addTestToAddresses w (Some (Some <$> rs))) = Return out →
  result (addTestToAddresses w (Some (Some <$> JS.split "," out)))
  = Return out.
Proof.
  intros Hrs Hout. destruct rs as [|r0 rs0] eqn:Hlist.
  - injection Hout as <-.
    change (JS.split "," "") with [""].
    change (Some <$> [""]) with [Some ""].
    unfold addTestToAddresses, processRecipients.
    rewrite _getReceivingAddresses_run, _getReceivingGroupIds_run.
    rewrite !bind_Return.
    by rewrite (_processRecipient_skip w "" "" _ _ eq_refl
                  (_shouldSkipModification_empty _)).
  - rewrite <- Hlist in *. assert (Hne : rs ≠ []) by (by rewrite Hlist).
    clear Hlist r0 rs0.
    destruct (addTestToAddresses_result rs Hne) as (vs & Hres & Hvs).
    rewrite Hres in Hout. injection Hout as <-.
    assert (Hvs' : Forall (λ v, lacks "," v = true) vs
                   ∧ Forall (λ v, processed w (whitelist_of w) (groupIds_of w) v v) vs).
    { clear Hres Hne. induction Hvs as [|r v rs vs Hv _ IH]; [done|].
      inversion Hrs as [|? ? [Hb Hc] Hrs']; subst.
      destruct (IH Hrs') as [IH1 IH2]. split; constructor; try done.
      - by apply (processed_lacks "," r (whitelist_of w) (groupIds_of w) v).
      - by apply (processed_bare_fixed r). }
    destruct Hvs' as [Hcomma Hfixed].
    assert (Hvne : vs ≠ []).
    { intros ->. apply Forall2_nil_inv_r in Hvs. done. }
    rewrite split_join by done.
    destruct (addTestToAddresses_result vs Hvne) as (vs' & Hres' & Hvs'').
    rewrite Hres'. do 3 f_equal.
    by apply (processed_fixed_list (whitelist_of w) (groupIds_of w)).
Qed.

End processing_further.

(** ** Concrete instances of the further properties *)

Lemma initialize_getName_witness :
  ∃ this, result (InstanceConfig.initialize store_config) = Return this
          ∧ InstanceConfig.getName this = Some "dev"
          ∧ GlideRecord.getUniqueValue (InstanceConfig.instance this)
            = Some "i1".
Proof.
  destruct (initialize_getName store_config)
    as (this & Hrun & _ & Hloaded & _).
  exists this. rewrite Hrun. split; [reflexivity|].
  destruct (Hloaded ({[ "name" := "dev"; "sys_id" := "i1" ]} : row))
    as [-> ->]; [|by split].
  exists [], []. split; [reflexivity|]. split; [reflexivity|constructor].
Defined.

Lemma getKey_without_instance_witness :
  InstanceConfig.getKey store_no_instance config_unloaded (Some "k")
  = Run [Query property_scope [("instance", None); ("property.key", Some "k")];
         Query property [("key", Some "k")]]
      (Return (Some "d")).
Proof.
  rewrite (getKey_without_instance store_no_instance config_unloaded (Some "k")).
  - reflexivity.
  - reflexivity.
  - repeat constructor. by intros [=].
  - repeat constructor. by intros [=].
Defined.

Lemma getKey_sound_witness :
  (∃ r, r ∈ records store_config property_scope
        ∧ is_override (Some "i1") (Some "k") r ∧ r !! "value" = Some "o")
  ∨ (∃ d, d ∈ records store_config property
          ∧ is_default (Some "k") d ∧ d !! "default_value" = Some "o").
Proof.
  apply (getKey_sound store_config config_dev (Some "k") "o"). reflexivity.
Defined.

Lemma extracted_address_between_witness :
  (∃ a b, "a <b <c@x.com> d>" = a +:+ "<" +:+ "b <c@x.com" +:+ ">" +:+ b
          ∧ lacks "<" a = true ∧ lacks ">" "b <c@x.com" = true)
  ∨ ("b <c@x.com" = "a <b <c@x.com> d>"
     ∧ ∀ a g b, "a <b <c@x.com> d>" ≠ a +:+ "<" +:+ g +:+ ">" +:+ b).
Proof.
  apply (extracted_address_between "a <b <c@x.com> d>" "b <c@x.com").
  reflexivity.
Defined.

Lemma addTestToAddresses_in_order_witness :
  ∃ t vs,
    MCK_MailHelper.addTestToAddresses store_directory
      (Some (Some <$> ["dev@x.com"; "Boss <boss@x.com>"]))
    = Run (GetProperty ReceivingAddresses :: GetProperty ReceivingGroupIds :: t)
        (Return (JS.join "," (Some <$> vs)))
    ∧ Forall2 (processed store_directory (whitelist_of store_directory)
                 (groupIds_of store_directory))
        ["dev@x.com"; "Boss <boss@x.com>"] vs
    ∧ reads t = 0%nat ∧ (queries t ≤ 2)%nat.
Proof.
  apply (addTestToAddresses_in_order store_directory
           ["dev@x.com"; "Boss <boss@x.com>"]).
  discriminate.
Defined.

Lemma no_exempt_groups_exempts_nobody_witness :
  MCK_MailHelper._getReceivingGroupIds store_bare
  = Run [GetProperty ReceivingGroupIds] (Return []).
Proof.
  apply (no_exempt_groups_exempts_nobody store_bare). left. reflexivity.
Defined.

Lemma groupIds_are_the_pieces_witness :
  ∃ gids,
    MCK_MailHelper._getReceivingGroupIds store_directory
    = Run [GetProperty ReceivingGroupIds] (Return gids)
    ∧ JS.join "," (Some <$> gids) = "g1,g2,g3"
    ∧ Forall (λ p, lacks "," p = true) gids
    ∧ gids ≠ [].
Proof.
  apply (groupIds_are_the_pieces store_directory "g1,g2,g3").
  - reflexivity.
  - discriminate.
Defined.


Lemma no_whitelist_exempts_nobody_witness :
  MCK_MailHelper._shouldSkipModification "a@x.com" "" = true
  ↔ "a@x.com" = "" ∨ occurs_in ".test" "a@x.com".
Proof.
  apply (no_whitelist_exempts_nobody store_bare). left. reflexivity.
Defined.

Lemma modifyRecipient_address_not_found_witness :
  MCK_MailHelper.modifyRecipient (Some "John <john@x.com>") "John@x.com"
  = mret "John <john@x.com>".
Proof.
  apply modifyRecipient_address_not_found.
  - discriminate.
  - intros H. apply indexOf_occurs in H. by vm_compute in H.
Defined.

Lemma unchanged_iff_exempt_witness :
  occurs_in ".test" "Dev <dev@x.com.test>".
Proof.
  apply (unchanged_iff_exempt store_directory "Dev <dev@x.com>" "dev@x.com"
           "" ["g1"; "g2"; "g3"] "Dev <dev@x.com.test>").
  - reflexivity.
  - reflexivity.
  - discriminate.
Defined.

Lemma output_splits_into_recipients_witness :
  Forall2 (processed store_bare (whitelist_of store_bare)
             (groupIds_of store_bare))
    ["a@x.com"; "B <b@x.com>"]
    (JS.split "," "a@x.com.test,B <b@x.com.test>").
Proof.
  apply (output_splits_into_recipients store_bare ["a@x.com"; "B <b@x.com>"]).
  - discriminate.
  - by repeat constructor.
  - reflexivity.
Defined.

Lemma second_pass_on_bare_recipients_witness :
  result (MCK_MailHelper.addTestToAddresses store_directory
            (Some (Some <$> JS.split "," "boss@x.com,pay$roll.test")))
  = Return "boss@x.com,pay$roll.test".
Proof.
  apply (second_pass_on_bare_recipients store_directory
           ["boss@x.com"; "pay$$roll"]).
  - by repeat constructor.
  - reflexivity.
Defined.

Lemma member_of_no_exempt_group_witness :
  MCK_MailHelper._isUserInAuthorizedGroup store_two_users "twin@x.com"
    ["g1"; "g2"]
  = Run [Query sys_user [("email", Some "twin@x.com")];
         GetUserByID (Some "u1"); IsMemberOf "u1" "g1"; IsMemberOf "u1" "g2"]
      (Return false).
Proof.
  apply (member_of_no_exempt_group store_two_users "twin@x.com"
           ({[ "email" := "twin@x.com"; "sys_id" := "u1" ]} : row) "u1" ∅).
  - exists [], [({[ "email" := "twin@x.com"; "sys_id" := "u2" ]} : row)].
    split; [reflexivity|]. split; [reflexivity|constructor].
  - reflexivity.
  - reflexivity.
  - repeat constructor; by intros ?%elem_of_empty.
Defined.
